(** * AllKeysTable: the key-listing table of the LiteLLM admin dashboard

    A shallow embedding of the [AllKeysTable] React component: its local
    state, the effects that recompute the filtered key list and merge the
    lookup lists, the filter callbacks, the column cell renderers, the
    pagination buttons and the table/detail view switch.

    A JavaScript string is modelled by the [string] of its UTF-8 bytes.
    On ASCII text a byte is a UTF-16 code unit, so [length], [slice] and
    [toLowerCase] are computed there; on other text they are left to the
    runtime, which the development takes as a parameter, as it does the
    date and number formatting. JavaScript numbers are the runtime's too:
    an abstract type with the arithmetic the component uses, instantiated
    with binary64 floats where a computation in doubles is traced. *)

From Stdlib Require Import ZArith Ascii List Bool Lia.
From Stdlib Require String DecimalString PrimFloat Uint63.
From stdpp Require Import base decidable option list strings gmap.

Import ListNotations.
Local Open Scope Z_scope.

(** ** JavaScript values *)

Module Js.

(** A value read from a JSON record or held in a [T | null] slot. *)
Inductive Nullable (A : Type) : Type :=
| Undefined
| Null
| Val (a : A).
Arguments Undefined {A}.
Arguments Null {A}.
Arguments Val {A} a.

#[global] Instance Nullable_eq_dec {A} `{EqDecision A} : EqDecision (Nullable A).
Proof. solve_decision. Defined.

(** [x] is null or undefined. *)
Definition absent {A} (x : Nullable A) : Prop :=
  match x with Val _ => False | _ => True end.

(** JavaScript truthiness, as used by [if (x)], [x ? a : b], [x && y]
    and [x || y]. *)
Class Truthy (A : Type) := truthy : A -> bool.

#[global] Instance string_truthy : Truthy string :=
  fun s => match s with EmptyString => false | String _ _ => true end.

(** Arrays are objects: always truthy, even when empty. *)
#[global] Instance array_truthy {A} : Truthy (list A) := fun _ => true.

#[global] Instance Nullable_truthy {A} `{Truthy A} : Truthy (Nullable A) :=
  fun x => match x with Val a => truthy a | _ => false end.

#[global] Instance option_truthy {A} `{Truthy A} : Truthy (option A) :=
  fun x => match x with Some a => truthy a | None => false end.

(** [x === s] for a string [s]: null and undefined equal no string. *)
Definition strict_eq (x : Nullable string) (s : string) : bool :=
  match x with Val a => String.eqb a s | _ => false end.

(** The text is ASCII: every byte is below 128, and is then one UTF-16
    code unit. *)
Fixpoint is_ascii (s : string) : bool :=
  match s with
  | EmptyString => true
  | String c s' => (N_of_ascii c <? 128)%N && is_ascii s'
  end.

(** [toLowerCase] on one ASCII character: A-Z go to a-z. *)
Definition lower_char (c : ascii) : ascii :=
  let n := N_of_ascii c in
  if ((65 <=? n) && (n <=? 90))%N then ascii_of_N (n + 32) else c.

(** [s.toLowerCase()] for an ASCII [s]. *)
Fixpoint ascii_lower (s : string) : string :=
  match s with
  | EmptyString => EmptyString
  | String c s' => String (lower_char c) (ascii_lower s')
  end.

(** [s.startsWith(p)]. *)
Fixpoint startsWith (s p : string) : bool :=
  match p, s with
  | EmptyString, _ => true
  | String _ _, EmptyString => false
  | String a p', String b s' => Ascii.eqb a b && startsWith s' p'
  end.

(** [s.includes(search)]: [search] occurs in [s] at some index. *)
Fixpoint includes (s search : string) : bool :=
  startsWith s search ||
  match s with
  | EmptyString => false
  | String _ s' => includes s' search
  end.

(** [s.slice(0, n)] for an ASCII [s]: its first [n] characters. *)
Fixpoint take_chars (n : nat) (s : string) : string :=
  match n, s with
  | S n', String c s' => String c (take_chars n' s')
  | _, _ => EmptyString
  end.

(** [xs.find(p)]: the first element satisfying [p], else undefined. *)
Fixpoint find {A} (p : A -> bool) (xs : list A) : option A :=
  match xs with
  | [] => None
  | x :: xs' => if p x then Some x else find p xs'
  end.

(** Two characters are the same letter up to case: equal, or one of
    A-Z and the other its small letter. *)
Definition same_letter (c d : ascii) : Prop :=
  let m := N_of_ascii c in
  let n := N_of_ascii d in
  m = n \/ ((65 <= m <= 90)%N /\ n = (m + 32)%N) \/
  ((65 <= n <= 90)%N /\ m = (n + 32)%N).

(** Two texts are equal up to the case of their letters. *)
Fixpoint eq_ignore_case (s t : string) : Prop :=
  match s, t with
  | EmptyString, EmptyString => True
  | String c s', String d t' => same_letter c d /\ eq_ignore_case s' t'
  | _, _ => False
  end.

(** [needle] occurs in [hay] up to the case of its letters. *)
Definition ci_substring (needle hay : string) : Prop :=
  exists pre mid post,
    hay = pre +:+ mid +:+ post /\ eq_ignore_case mid needle.

(** *** The runtime *)

(** JavaScript numbers with the operations the component uses.
    [num_of_Z z] is the number that the integer literal [z] denotes,
    [num_eqb] is [===], [num_min] is [Math.min]. *)
Class JsNumbers : Type := {
  JsNumber : Type;
  num_of_Z : Z -> JsNumber;
  num_add : JsNumber -> JsNumber -> JsNumber;
  num_sub : JsNumber -> JsNumber -> JsNumber;
  num_mul : JsNumber -> JsNumber -> JsNumber;
  num_min : JsNumber -> JsNumber -> JsNumber;
  num_eqb : JsNumber -> JsNumber -> bool;
}.

(** [Number(v).toFixed(4)]. *)
Class JsNumberFormat `{JsNumbers} : Type := {
  Number_toFixed4 : Nullable JsNumber -> string;
}.

(** String methods on text that is not ASCII, and the locale's date
    formats: [s.toLowerCase()], [s.slice(0, n)], [s.length],
    [new Date(s).toLocaleDateString()], [new Date(s).toLocaleString()]. *)
Class JsStrings : Type := {
  unicode_toLowerCase : string -> string;
  unicode_slice0 : nat -> string -> string;
  unicode_length : string -> nat;
  toLocaleDateString : string -> string;
  toLocaleString : string -> string;
}.

(** An integer that a double represents exactly, with its neighbours. *)
Definition safe (z : Z) : Prop := - 2 ^ 53 <= z <= 2 ^ 53.

(** On safe integers the arithmetic of doubles is that of the integers,
    as long as the result is safe. *)
Record SafeIntegers `{JsNumbers} : Prop := {
  of_Z_add : forall a b, safe a -> safe b -> safe (a + b) ->
    num_add (num_of_Z a) (num_of_Z b) = num_of_Z (a + b);
  of_Z_sub : forall a b, safe a -> safe b -> safe (a - b) ->
    num_sub (num_of_Z a) (num_of_Z b) = num_of_Z (a - b);
  of_Z_mul : forall a b, safe a -> safe b -> safe (a * b) ->
    num_mul (num_of_Z a) (num_of_Z b) = num_of_Z (a * b);
  of_Z_min : forall a b, safe a -> safe b ->
    num_min (num_of_Z a) (num_of_Z b) = num_of_Z (Z.min a b);
  of_Z_eqb : forall a b, safe a -> safe b ->
    num_eqb (num_of_Z a) (num_of_Z b) = (a =? b);
}.

End Js.
Import Js.

(** ** Runtimes to compute with *)

Module Runtimes.

(** *** Numbers as integers *)

Definition integer_numbers : JsNumbers := {|
  JsNumber := Z;
  num_of_Z := fun z => z;
  num_add := Z.add;
  num_sub := Z.sub;
  num_mul := Z.mul;
  num_min := Z.min;
  num_eqb := Z.eqb;
|}.

(** [Number(v).toFixed(4)] on integers: null counts as 0 and undefined
    as NaN. *)
Definition sample_toFixed4 (v : Nullable Z) : string :=
  match v with
  | Undefined => "NaN"
  | Null => "0.0000"
  | Val z =>
      (if z <? 0 then "-" else "") +:+
      DecimalString.NilZero.string_of_uint (N.to_uint (Z.abs_N z)) +:+ ".0000"
  end.

Definition integer_format : @JsNumberFormat integer_numbers :=
  {| Number_toFixed4 :=
       (sample_toFixed4 : Nullable (@JsNumber integer_numbers) -> string) |}.

(** *** Numbers as binary64 floats, which JavaScript numbers are *)

(** The double of an integer literal below 2^63 in absolute value. *)
Definition double_of_Z (z : Z) : PrimFloat.float :=
  match z with
  | Z0 => PrimFloat.zero
  | Zpos _ => PrimFloat.of_uint63 (Uint63.of_Z z)
  | Zneg p => PrimFloat.opp (PrimFloat.of_uint63 (Uint63.of_Z (Zpos p)))
  end.

(** [Math.min]: NaN if an argument is, and -0 below +0. *)
Definition double_min (a b : PrimFloat.float) : PrimFloat.float :=
  if PrimFloat.is_nan a || PrimFloat.is_nan b then PrimFloat.nan
  else if PrimFloat.ltb a b then a
  else if PrimFloat.ltb b a then b
  else if PrimFloat.get_sign a then a else b.

Definition double_numbers : JsNumbers := {|
  JsNumber := PrimFloat.float;
  num_of_Z := double_of_Z;
  num_add := PrimFloat.add;
  num_sub := PrimFloat.sub;
  num_mul := PrimFloat.mul;
  num_min := double_min;
  num_eqb := PrimFloat.eqb;
|}.

(** *** Strings: ASCII and unaccented Greek *)

Definition is_ascii_letter (n : N) : bool :=
  (((65 <=? n) && (n <=? 90)) || ((97 <=? n) && (n <=? 122)))%N.

(** The two bytes [n], [m] are a small Greek letter, alpha to omega. *)
Definition is_greek_small (n m : N) : bool :=
  (((n =? 206) && (177 <=? m) && (m <=? 191)) ||
   ((n =? 207) && (128 <=? m) && (m <=? 137)))%N.

(** The two bytes [n], [m] are a Greek capital, Alpha to Omega. *)
Definition is_greek_capital (n m : N) : bool :=
  ((n =? 206) && (145 <=? m) && (m <=? 169) && negb (m =? 162))%N.

(** The text starts with a letter that has a case. *)
Definition starts_cased (s : string) : bool :=
  match s with
  | EmptyString => false
  | String c s' =>
      let n := N_of_ascii c in
      if (n <? 128)%N then is_ascii_letter n
      else match s' with
           | EmptyString => false
           | String d _ =>
               is_greek_small n (N_of_ascii d) || is_greek_capital n (N_of_ascii d)
           end
  end.

(** [s.toLowerCase()] on text made of ASCII letters, digits, spaces and
    hyphens and of unaccented Greek letters. A capital sigma becomes the
    final small sigma when a cased letter precedes it and none follows
    (Unicode's Final_Sigma rule, which [toLowerCase] applies), and the
    small sigma otherwise. [prev_cased] tells whether the character
    before [s] is a cased letter. *)
Fixpoint greek_lower (prev_cased : bool) (s : string) : string :=
  match s with
  | EmptyString => EmptyString
  | String c s1 =>
      let n := N_of_ascii c in
      if (n <? 128)%N
      then String (lower_char c) (greek_lower (is_ascii_letter n) s1)
      else
        match s1 with
        | EmptyString => String c EmptyString
        | String d s2 =>
            let m := N_of_ascii d in
            if ((n =? 206) && (m =? 163))%N then
              String (ascii_of_N 207)
                (String (ascii_of_N
                           (if prev_cased && negb (starts_cased s2)
                            then 130 else 131))
                        (greek_lower true s2))
            else if ((n =? 206) && (145 <=? m) && (m <=? 159))%N then
              String c (String (ascii_of_N (m + 32)) (greek_lower true s2))
            else if ((n =? 206) && (160 <=? m) && (m <=? 169)
                     && negb (m =? 162))%N then
              String (ascii_of_N 207)
                (String (ascii_of_N (m - 32)) (greek_lower true s2))
            else if is_greek_small n m then
              String c (String d (greek_lower true s2))
            else String c (greek_lower false s1)
        end
  end.

Definition sample_toLowerCase (s : string) : string := greek_lower false s.

(** Dates are shown as they come. *)
Definition sample_date (s : string) : string := s.

(** A byte that continues a UTF-8 sequence. *)
Definition is_continuation (c : ascii) : bool :=
  ((128 <=? N_of_ascii c) && (N_of_ascii c <? 192))%N.

(** [s.length]: the UTF-16 code units of UTF-8 text, one for each
    sequence of up to three bytes and two for each of four. *)
Fixpoint utf16_length (s : string) : nat :=
  match s with
  | EmptyString => 0
  | String c s' =>
      ((if is_continuation c then 0
        else if (240 <=? N_of_ascii c)%N then 2 else 1) + utf16_length s')%nat
  end.

(** [s.slice(0, n)] on UTF-8 text; a cut inside a surrogate pair, which
    UTF-8 cannot write, falls before the pair. *)
Fixpoint utf16_slice0 (n : nat) (s : string) : string :=
  match s with
  | EmptyString => EmptyString
  | String c s' =>
      if is_continuation c then String c (utf16_slice0 n s')
      else if (240 <=? N_of_ascii c)%N then
        match n with
        | S (S n') => String c (utf16_slice0 n' s')
        | _ => EmptyString
        end
      else
        match n with
        | S n' => String c (utf16_slice0 n' s')
        | O => EmptyString
        end
  end.

Definition sample_strings : JsStrings := {|
  unicode_toLowerCase := sample_toLowerCase;
  unicode_slice0 := utf16_slice0;
  unicode_length := utf16_length;
  toLocaleDateString := sample_date;
  toLocaleString := sample_date;
|}.

End Runtimes.
Import Runtimes.

(** ** Records exchanged with the server and the parent *)

Module Team.
(** Modelled from the spec: the [Team] interface lives in
    [key_team_helpers/key_list]; "identifier plus display name", with the
    display name possibly missing as the component's own guards on
    [team.team_alias] expect. *)
Record t : Type := mk {
  team_id : string;
  team_alias : Nullable string;
}.
End Team.

Module Organization.
(** Modelled from the spec: the [Organization] interface lives in
    [networking]; "identifier plus display name". *)
Record t : Type := mk {
  organization_id : string;
  organization_name : Nullable string;
}.
End Organization.

Module UserResponse.
Record t : Type := mk {
  user_id : string;
  user_email : Nullable string;
  user_role : string;
}.
End UserResponse.

Section Component.

Context {numbers : JsNumbers} {format : JsNumberFormat} {strings : JsStrings}.

(** [s.toLowerCase()]. *)
Definition toLowerCase (s : string) : string :=
  if is_ascii s then ascii_lower s else unicode_toLowerCase s.

(** [s.slice(0, n)]. *)
Definition slice0 (n : nat) (s : string) : string :=
  if is_ascii s then take_chars n s else unicode_slice0 n s.

(** [s.length]. *)
Definition js_length (s : string) : nat :=
  if is_ascii s then String.length s else unicode_length s.

(** Modelled from the spec: the [KeyResponse] interface lives in
    [key_team_helpers/key_list]; the fields are those the component
    reads, each possibly null or missing in the JSON record. *)
Record KeyResponse : Type := mkKey {
  token : Nullable string;
  key_alias : Nullable string;
  key_name : Nullable string;
  team_id : Nullable string;
  organization_id : Nullable string;
  user_id : Nullable string;
  created_at : Nullable string;
  created_by : Nullable string;
  expires : Nullable string;
  spend : Nullable JsNumber;
  max_budget : Nullable JsNumber;
  budget_reset_at : Nullable string;
  models : Nullable (list string);
  tpm_limit : Nullable JsNumber;
  rpm_limit : Nullable JsNumber;
}.

(** The filter predicate set: the [filters] state object. *)
Record Filters : Type := mkFilters {
  Team_ID : string;
  Organization_ID : string;
  Key_Alias : string;
}.

Definition no_filters : Filters := mkFilters "" "" "".

(** Local state of the component (the [useState] slots). *)
Record State : Type := mkState {
  selectedKeyId : Nullable string;
  filters : Filters;
  userList : list UserResponse.t;
  allKeyAliases : list string;
  allTeams : list Team.t;
  allOrganizations : list Organization.t;
  filteredKeys : option (list KeyResponse);
}.

Definition setSelectedKeyId (v : Nullable string) (st : State) : State :=
  mkState v (filters st) (userList st) (allKeyAliases st) (allTeams st)
          (allOrganizations st) (filteredKeys st).
Definition setFilters (v : Filters) (st : State) : State :=
  mkState (selectedKeyId st) v (userList st) (allKeyAliases st) (allTeams st)
          (allOrganizations st) (filteredKeys st).
Definition setUserList (v : list UserResponse.t) (st : State) : State :=
  mkState (selectedKeyId st) (filters st) v (allKeyAliases st) (allTeams st)
          (allOrganizations st) (filteredKeys st).
Definition setAllKeyAliases (v : list string) (st : State) : State :=
  mkState (selectedKeyId st) (filters st) (userList st) v (allTeams st)
          (allOrganizations st) (filteredKeys st).
Definition setAllTeams (v : list Team.t) (st : State) : State :=
  mkState (selectedKeyId st) (filters st) (userList st) (allKeyAliases st) v
          (allOrganizations st) (filteredKeys st).
Definition setAllOrganizations (v : list Organization.t) (st : State) : State :=
  mkState (selectedKeyId st) (filters st) (userList st) (allKeyAliases st)
          (allTeams st) v (filteredKeys st).
Definition setFilteredKeys (v : list KeyResponse) (st : State) : State :=
  mkState (selectedKeyId st) (filters st) (userList st) (allKeyAliases st)
          (allTeams st) (allOrganizations st) (Some v).

(** The state of the first render: [useState] initial values. *)
Definition initialState (keys : option (list KeyResponse))
    (teams : option (list Team.t))
    (organizations : option (list Organization.t)) : State :=
  mkState Null no_filters [] [] (default [] teams) (default [] organizations)
          keys.

(** *** Filter reconciliation: the effect on [keys, filters] *)

Definition team_filter (f : string) (key : KeyResponse) : bool :=
  strict_eq (team_id key) f.
Definition org_filter (f : string) (key : KeyResponse) : bool :=
  strict_eq (organization_id key) f.
Definition alias_filter (f : string) (key : KeyResponse) : bool :=
  truthy (key_alias key) &&
  match key_alias key with
  | Val a => includes (toLowerCase a) (toLowerCase f)
  | _ => false
  end.

(** The list handed to [setFilteredKeys]. *)
Definition applyFilters (keys : option (list KeyResponse)) (f : Filters)
    : list KeyResponse :=
  match keys with
  | None => []
  | Some ks =>
      let result := ks in
      let result :=
        if truthy (Team_ID f)
        then List.filter (team_filter (Team_ID f)) result else result in
      let result :=
        if truthy (Organization_ID f)
        then List.filter (org_filter (Organization_ID f)) result else result in
      let result :=
        if truthy (Key_Alias f)
        then List.filter (alias_filter (Key_Alias f)) result else result in
      result
  end.

Definition filterEffect (keys : option (list KeyResponse)) (st : State) : State :=
  setFilteredKeys (applyFilters keys (filters st)) st.

(** *** Lookup lists: the mount-time fetch and the merge with the props *)

(** [loadAllFilterData], one definition per [await] continuation. *)
Definition aliasesLoaded (aliases : list string) (st : State) : State :=
  setAllKeyAliases aliases st.

Definition teamsLoaded (teamsData : list Team.t) (st : State) : State :=
  if (0 <? length teamsData)%nat then setAllTeams teamsData st else st.

Definition orgsLoaded (orgsData : list Organization.t) (st : State) : State :=
  if (0 <? length orgsData)%nat then setAllOrganizations orgsData st else st.

Definition loadAllFilterData (aliases : list string)
    (teamsData : list Team.t) (orgsData : list Organization.t)
    (st : State) : State :=
  orgsLoaded orgsData (teamsLoaded teamsData (aliasesLoaded aliases st)).

(** The effect on [accessToken]; the three lists are what the fetches
    resolve to. *)
Definition mountEffect (accessToken : option string) (aliases : list string)
    (teamsData : list Team.t) (orgsData : list Organization.t)
    (st : State) : State :=
  if truthy accessToken then loadAllFilterData aliases teamsData orgsData st
  else st.

(** The updater passed to [setAllTeams] / [setAllOrganizations] by the
    effects on the [teams] and [organizations] props. *)
Definition keepLarger {A} (candidate prev : list A) : list A :=
  if (length prev <? length candidate)%nat then candidate else prev.

Definition teamsPropEffect (teams : option (list Team.t)) (st : State) : State :=
  match teams with
  | Some ts =>
      if (0 <? length ts)%nat
      then setAllTeams (keepLarger ts (allTeams st)) st else st
  | None => st
  end.

Definition organizationsPropEffect
    (organizations : option (list Organization.t)) (st : State) : State :=
  match organizations with
  | Some os =>
      if (0 <? length os)%nat
      then setAllOrganizations (keepLarger os (allOrganizations st)) st else st
  | None => st
  end.

(** *** Callbacks into the parent *)

Inductive ParentCall : Type :=
| SetSelectedTeam (team : option Team.t)
| SetCurrentOrg (org : option Organization.t)
| OnPageChange (page : JsNumber).

(** The parent-owned selection that the callbacks mutate. *)
Record Parent : Type := mkParent {
  selectedTeam : option Team.t;
  currentOrg : option Organization.t;
  requestedPages : list JsNumber;
}.

Definition runCall (p : Parent) (c : ParentCall) : Parent :=
  match c with
  | SetSelectedTeam t => mkParent t (currentOrg p) (requestedPages p)
  | SetCurrentOrg o => mkParent (selectedTeam p) o (requestedPages p)
  | OnPageChange n =>
      mkParent (selectedTeam p) (currentOrg p) (requestedPages p ++ [n])
  end.

Definition runCalls (cs : list ParentCall) (p : Parent) : Parent :=
  fold_left runCall cs p.

(** [x || d] on a possibly missing string. *)
Definition or_else (x : option string) (d : string) : string :=
  match x with
  | Some s => if truthy s then s else d
  | None => d
  end.

Definition teamCalls (newFilters : gmap string string) (st : State)
    : list ParentCall :=
  match newFilters !! "Team ID" with
  | Some v =>
      if truthy v then
        match find (fun team => String.eqb (Team.team_id team) v) (allTeams st) with
        | Some selectedTeamData => [SetSelectedTeam (Some selectedTeamData)]
        | None => []
        end
      else []
  | None => []
  end.

Definition orgCalls (newFilters : gmap string string) (st : State)
    : list ParentCall :=
  match newFilters !! "Organization ID" with
  | Some v =>
      if truthy v then
        match find (fun org => String.eqb (Organization.organization_id org) v)
                   (allOrganizations st) with
        | Some selectedOrg => [SetCurrentOrg (Some selectedOrg)]
        | None => []
        end
      else []
  | None => []
  end.

Definition handleFilterChange (newFilters : gmap string string) (st : State)
    : State * list ParentCall :=
  (setFilters
     (mkFilters (or_else (newFilters !! "Team ID") "")
                (or_else (newFilters !! "Organization ID") "")
                (or_else (newFilters !! "Key Alias") ""))
     st,
   teamCalls newFilters st ++ orgCalls newFilters st).

Definition handleFilterReset (st : State) : State * list ParentCall :=
  (setFilters no_filters st, [SetSelectedTeam None; SetCurrentOrg None]).

(** *** Column cell renderers *)

(** What a cell renders: React nodes, reduced to their text, the elements
    that wrap it and the key selected by a button's [onClick]. *)
Inductive Tag : Type :=
| Div
| Span
| Tooltip (title : Nullable string)
| Button (selects : Nullable string).

#[warning="-register-all"]
Inductive Node : Type :=
| Nothing                       (* null, undefined: renders nothing *)
| Text (s : string)
| Num (n : JsNumber)
| Element (tag : Tag) (children : list Node).

(** The strings a node puts on screen, in document order. *)
Fixpoint texts (n : Node) : list string :=
  match n with
  | Nothing => []
  | Text s => [s]
  | Num _ => []
  | Element _ children => concat (map texts children)
  end.

(** [{v}] for a possibly missing string or number. *)
Definition embed_string (v : Nullable string) : Node :=
  match v with Val s => Text s | _ => Nothing end.
Definition embed_number (v : Nullable JsNumber) : Node :=
  match v with Val n => Num n | _ => Nothing end.

(** [v ? yes(v) : no]. *)
Definition cond {A B} `{Truthy A} (v : Nullable A) (yes : A -> B) (no : B) : B :=
  match v with
  | Val a => if truthy a then yes a else no
  | _ => no
  end.

(** [`${s.slice(0, 7)}...`]. *)
Definition truncated7 (s : string) : Node := Text (slice0 7 s +:+ "...").

(** A row handed to a cell by the table primitive. *)
Record Row : Type := mkRow {
  original : KeyResponse;
  getCanExpand : bool;
  getIsExpanded : bool;
}.

Inductive Column : Type :=
| Expander | KeyID | KeyAlias | SecretKey | TeamAlias | TeamID
| OrganizationID | UserEmail | UserID | CreatedAt | CreatedBy | Expires
| Spend | Budget | BudgetReset | Models | RateLimits.

#[global] Instance Column_eq_dec : EqDecision Column.
Proof. solve_decision. Defined.

Definition columns : list Column :=
  [Expander; KeyID; KeyAlias; SecretKey; TeamAlias; TeamID; OrganizationID;
   UserEmail; UserID; CreatedAt; CreatedBy; Expires; Spend; Budget;
   BudgetReset; Models; RateLimits].

(** [columns.filter(col => col.id !== 'expander')]. *)
Definition tableColumns : list Column :=
  List.filter (fun col => negb (bool_decide (col = Expander))) columns.

(** [allTeams?.find(t => t.team_id === teamId)]. *)
Definition findTeam (st : State) (teamId : Nullable string) : option Team.t :=
  find (fun t => strict_eq teamId (Team.team_id t)) (allTeams st).

(** [userList.find(u => u.user_id === userId)]. *)
Definition findUser (st : State) (userId : Nullable string) : option UserResponse.t :=
  find (fun u => strict_eq userId (UserResponse.user_id u)) (userList st).

Definition rateLimit (v : Nullable JsNumber) : Node :=
  match v with
  | Null => Text "Unlimited"
  | _ => embed_number v
  end.

Definition cell (st : State) (col : Column) (row : Row) : Node :=
  let key := original row in
  match col with
  | Expander =>
      if getCanExpand row
      then Element (Button Undefined)
             [Text (if getIsExpanded row then "▼" else "▶")]
      else Nothing
  | KeyID =>
      Element Div
        [Element (Tooltip (token key))
           [Element (Button (token key))
              [cond (token key) truncated7 (Text "-")]]]
  | KeyAlias =>
      Element (Tooltip (key_alias key))
        [cond (key_alias key)
           (fun value =>
              if (20 <? js_length value)%nat
              then Text (slice0 20 value +:+ "...") else Text value)
           (Text "-")]
  | SecretKey => Element Span [embed_string (key_name key)]
  | TeamAlias =>
      match findTeam st (team_id key) with
      | Some team => cond (Team.team_alias team) Text (Text "Unknown")
      | None => Text "Unknown"
      end
  | TeamID =>
      Element (Tooltip (team_id key))
        [cond (team_id key) truncated7 (Text "-")]
  | OrganizationID => cond (organization_id key) Text (Text "-")
  | UserEmail =>
      match findUser st (user_id key) with
      | Some user => cond (UserResponse.user_email user) Text (Text "-")
      | None => Text "-"
      end
  | UserID =>
      cond (user_id key)
        (fun userId =>
           Element (Tooltip (Val userId))
             [Element Span [Text (slice0 7 userId); Text "..."]])
        (Text "-")
  | CreatedAt =>
      cond (created_at key) (fun v => Text (toLocaleDateString v)) (Text "-")
  | CreatedBy => cond (created_by key) Text (Text "Unknown")
  | Expires =>
      cond (expires key) (fun v => Text (toLocaleDateString v)) (Text "Never")
  | Spend => Text (Number_toFixed4 (spend key))
  | Budget =>
      match max_budget key with
      | Val n => Num n
      | _ => Text "Unlimited"
      end
  | BudgetReset =>
      cond (budget_reset_at key) (fun v => Text (toLocaleString v)) (Text "Never")
  | Models =>
      Element Div
        match models key with
        | Val ms =>
            if (0 <? length ms)%nat
            then map (fun model => Element Span [Text model]) ms
            else [Text "-"]
        | _ => [Text "-"]
        end
  | RateLimits =>
      Element Div
        [Element Div [Text "TPM: "; rateLimit (tpm_limit key)];
         Element Div [Text "RPM: "; rateLimit (rpm_limit key)]]
  end.

(** The field a column reads is null or missing from the record. *)
Definition field_absent (col : Column) (key : KeyResponse) : Prop :=
  match col with
  | Expander => False
  | KeyID => absent (token key)
  | KeyAlias => absent (key_alias key)
  | SecretKey => absent (key_name key)
  | TeamAlias | TeamID => absent (team_id key)
  | OrganizationID => absent (organization_id key)
  | UserEmail | UserID => absent (user_id key)
  | CreatedAt => absent (created_at key)
  | CreatedBy => absent (created_by key)
  | Expires => absent (expires key)
  | Spend => absent (spend key)
  | Budget => absent (max_budget key)
  | BudgetReset => absent (budget_reset_at key)
  | Models => absent (models key)
  | RateLimits => absent (tpm_limit key) \/ absent (rpm_limit key)
  end.

(** The field a column reads is null. *)
Definition field_null (col : Column) (key : KeyResponse) : Prop :=
  match col with
  | Expander => False
  | KeyID => token key = Null
  | KeyAlias => key_alias key = Null
  | SecretKey => key_name key = Null
  | TeamAlias | TeamID => team_id key = Null
  | OrganizationID => organization_id key = Null
  | UserEmail | UserID => user_id key = Null
  | CreatedAt => created_at key = Null
  | CreatedBy => created_by key = Null
  | Expires => expires key = Null
  | Spend => spend key = Null
  | Budget => max_budget key = Null
  | BudgetReset => budget_reset_at key = Null
  | Models => models key = Null
  | RateLimits => tpm_limit key = Null \/ rpm_limit key = Null
  end.

(** The entity a column looks up by id is not in the held list. *)
Definition unresolved (st : State) (col : Column) (key : KeyResponse) : Prop :=
  match col with
  | TeamAlias => findTeam st (team_id key) = None
  | UserEmail => findUser st (user_id key) = None
  | _ => False
  end.

Definition placeholders : list string := ["-"; "Unknown"; "Never"; "Unlimited"].

(** A node shows one of the literal placeholders. *)
Definition shows_placeholder (n : Node) : Prop :=
  exists p, In p placeholders /\ In p (texts n).

(** *** Pagination buttons and the table / detail switch *)

Record Pagination : Type := mkPagination {
  currentPage : JsNumber;
  totalPages : JsNumber;
  totalCount : JsNumber;
}.

Record Props : Type := mkProps {
  keys : option (list KeyResponse);
  isLoading : bool;
  pagination : Pagination;
  teams : option (list Team.t);
  organizations : option (list Organization.t);
  accessToken : option string;
}.

Record ButtonProps : Type := mkButton {
  disabled : bool;
  onClick : ParentCall;
}.

Definition previousButton (props : Props) : ButtonProps :=
  mkButton (isLoading props ||
            num_eqb (currentPage (pagination props)) (num_of_Z 1))
           (OnPageChange (num_sub (currentPage (pagination props)) (num_of_Z 1))).

Definition nextButton (props : Props) : ButtonProps :=
  mkButton (isLoading props ||
            num_eqb (currentPage (pagination props))
                    (totalPages (pagination props)))
           (OnPageChange (num_add (currentPage (pagination props)) (num_of_Z 1))).

(** A click on a button: a disabled button fires no handler. *)
Definition click (b : ButtonProps) : list ParentCall :=
  if disabled b then [] else [onClick b].

(** The two sub-views the component can put on screen. *)
Inductive View : Type :=
| KeyInfoView (keyId : string) (keyData : option KeyResponse)
              (detailTeams : list Team.t)
| TableView (initialValues : Filters) (previous next : ButtonProps)
            (data : option (list KeyResponse)).

(** What a render gives: the children of the outer [div], or a
    [TypeError] thrown while the element is built. *)
Inductive Rendered : Type :=
| Throws
| Shows (children : list View).

(** The ternary on [selectedKeyId]; building the detail view calls
    [keys.find], which throws on a null [keys]. *)
Definition render (props : Props) (st : State) : Rendered :=
  cond (selectedKeyId st)
    (fun id =>
       match keys props with
       | Some ks =>
           Shows [KeyInfoView id (find (fun k => strict_eq (token k) id) ks)
                              (allTeams st)]
       | None => Throws
       end)
    (Shows [TableView (filters st) (previousButton props) (nextButton props)
                      (filteredKeys st)]).

Definition is_detail (v : View) : bool :=
  match v with KeyInfoView _ _ _ => true | TableView _ _ _ _ => false end.
Definition is_table (v : View) : bool :=
  match v with KeyInfoView _ _ _ => false | TableView _ _ _ _ => true end.

(** The number of detail views, and of tables, on screen. *)
Definition details_shown (r : Rendered) : nat :=
  match r with
  | Throws => 0
  | Shows children => length (List.filter is_detail children)
  end.
Definition tables_shown (r : Rendered) : nat :=
  match r with
  | Throws => 0
  | Shows children => length (List.filter is_table children)
  end.

Definition detail_visible (r : Rendered) : bool := (0 <? details_shown r)%nat.
Definition table_visible (r : Rendered) : bool := (0 <? tables_shown r)%nat.

(** User actions; each is possible only while its control is on screen. *)
Inductive Event : Type :=
| ClickKeyId (row : nat)          (* Key ID button of a displayed record *)
| CloseDetail                     (* [onClose] of the detail view *)
| ApplyFilters (newFilters : gmap string string)
| ResetFilters
| ClickPrevious
| ClickNext.

Definition handle (props : Props) (st : State) (ev : Event)
    : option (State * list ParentCall) :=
  match render props st, ev with
  | Shows [TableView _ _ _ rows], ClickKeyId i =>
      match default [] rows !! i with
      | Some key => Some (setSelectedKeyId (token key) st, [])
      | None => None
      end
  | Shows [TableView _ _ _ _], ApplyFilters newFilters =>
      Some (handleFilterChange newFilters st)
  | Shows [TableView _ _ _ _], ResetFilters => Some (handleFilterReset st)
  | Shows [TableView _ prev _ _], ClickPrevious => Some (st, click prev)
  | Shows [TableView _ _ next _], ClickNext => Some (st, click next)
  | Shows [KeyInfoView _ _ _], CloseDetail => Some (setSelectedKeyId Null st, [])
  | _, _ => None
  end.

(** State updates that do not come from a user action: effects re-run
    on a prop change and fetches that resolve. *)
Inductive Update : Type :=
| RunFilterEffect
| RunTeamsPropEffect
| RunOrganizationsPropEffect
| AliasesLoaded (aliases : list string)
| TeamsLoaded (teamsData : list Team.t)
| OrgsLoaded (orgsData : list Organization.t)
| UsersLoaded (users : list UserResponse.t).

Definition update (st : State) (u : Props * Update) : State :=
  match u with
  | (props, RunFilterEffect) => filterEffect (keys props) st
  | (props, RunTeamsPropEffect) => teamsPropEffect (teams props) st
  | (props, RunOrganizationsPropEffect) =>
      organizationsPropEffect (organizations props) st
  | (_, AliasesLoaded l) => aliasesLoaded l st
  | (_, TeamsLoaded l) => teamsLoaded l st
  | (_, OrgsLoaded l) => orgsLoaded l st
  | (_, UsersLoaded l) => setUserList l st
  end.

Definition updates (us : list (Props * Update)) (st : State) : State :=
  fold_left update us st.

(** *** The filter contract in the spec's words *)

(** The lower-cased [needle] occurs in the lower-cased [hay]. *)
Definition lower_occurs (needle hay : string) : Prop :=
  exists pre post, toLowerCase hay = pre +:+ toLowerCase needle +:+ post.

(** A record satisfies every non-empty predicate of the set: it has the
    team id, it has the organization id, and its alias is not empty and
    contains the alias predicate once both are lower-cased. *)
Definition satisfies (f : Filters) (key : KeyResponse) : Prop :=
  (Team_ID f <> "" -> team_id key = Val (Team_ID f)) /\
  (Organization_ID f <> "" -> organization_id key = Val (Organization_ID f)) /\
  (Key_Alias f <> "" ->
     exists a, key_alias key = Val a /\ a <> "" /\
               lower_occurs (Key_Alias f) a).

(** The claim's reading of the alias predicate: the predicate text
    occurs in the alias up to the case of letters. *)
Definition satisfies_ignoring_case (f : Filters) (key : KeyResponse) : Prop :=
  (Team_ID f <> "" -> team_id key = Val (Team_ID f)) /\
  (Organization_ID f <> "" -> organization_id key = Val (Organization_ID f)) /\
  (Key_Alias f <> "" ->
     exists a, key_alias key = Val a /\ ci_substring (Key_Alias f) a).

(** The one-pass test that the three staged passes amount to. *)
Definition passes (f : Filters) (key : KeyResponse) : bool :=
  (negb (truthy (Team_ID f)) || team_filter (Team_ID f) key) &&
  (negb (truthy (Organization_ID f)) || org_filter (Organization_ID f) key) &&
  (negb (truthy (Key_Alias f)) || alias_filter (Key_Alias f) key).

(** *** The user-list effect *)

Definition is_null {A} (x : Nullable A) : bool :=
  match x with Null => true | _ => false end.

(** [keys.map(key => key.user_id).filter(id => id !== null)]. *)
Definition user_IDs (ks : list KeyResponse) : list (Nullable string) :=
  List.filter (fun id => negb (is_null id)) (map user_id ks).

(** What running the effect on [accessToken, keys] does. *)
Inductive UserListEffect : Type :=
| NoUserListCall
| ThrowsTypeError                 (* [keys.map] on a null [keys] *)
| UserListCall (token : string) (ids : list (Nullable string))
               (page page_size : Z).

Definition userListEffect (accessToken : option string)
    (keys : option (list KeyResponse)) : UserListEffect :=
  match accessToken with
  | Some tok =>
      if truthy tok then
        match keys with
        | Some ks => UserListCall tok (user_IDs ks) 1 100
        | None => ThrowsTypeError
        end
      else NoUserListCall
  | None => NoUserListCall
  end.

(** *** Filter suggestions: the [searchFn] of each filter option *)

Record Suggestion : Type := mkSuggestion {
  label : string;
  value : string;
}.

(** [a || b] on strings, the first possibly missing. *)
Definition or_string (a : Nullable string) (b : string) : string :=
  cond a (fun s => s) b.

(** [name && name.toLowerCase().includes(searchText.toLowerCase())]. *)
Definition name_matches (name : Nullable string) (searchText : string) : bool :=
  cond name
    (fun s => includes (toLowerCase s) (toLowerCase searchText)) false.

Definition teamSuggestion (team : Team.t) : Suggestion :=
  mkSuggestion
    (or_string (Team.team_alias team) (Team.team_id team) +:+ " (" +:+
     Team.team_id team +:+ ")")
    (Team.team_id team).

Definition teamMatches (searchText : string) (team : Team.t) : bool :=
  includes (toLowerCase (Team.team_id team)) (toLowerCase searchText) ||
  name_matches (Team.team_alias team) searchText.

Definition teamSearchFn (st : State) (searchText : string) : list Suggestion :=
  if (length (allTeams st) =? 0)%nat then []
  else map teamSuggestion (List.filter (teamMatches searchText) (allTeams st)).

Definition orgSuggestion (org : Organization.t) : Suggestion :=
  mkSuggestion
    (or_string (Organization.organization_name org) "Unknown" +:+ " (" +:+
     Organization.organization_id org +:+ ")")
    (Organization.organization_id org).

Definition orgMatches (searchText : string) (org : Organization.t) : bool :=
  includes (toLowerCase (Organization.organization_id org))
           (toLowerCase searchText) ||
  name_matches (Organization.organization_name org) searchText.

Definition orgSearchFn (st : State) (searchText : string) : list Suggestion :=
  if (length (allOrganizations st) =? 0)%nat then []
  else map orgSuggestion
         (List.filter (orgMatches searchText) (allOrganizations st)).

Definition aliasMatches (searchText alias : string) : bool :=
  truthy alias && includes (toLowerCase alias) (toLowerCase searchText).

Definition aliasSearchFn (st : State) (searchText : string) : list Suggestion :=
  if (length (allKeyAliases st) =? 0)%nat then []
  else map (fun alias => mkSuggestion alias alias)
         (List.filter (aliasMatches searchText) (allKeyAliases st)).

(** *** The "Showing a - b of n results" line *)

Inductive Showing : Type :=
| ShowingDots                                   (* while loading *)
| ShowingRange (first last total : JsNumber).

(** [pageSize] defaults to 50 when the parent passes none. *)
Definition showing (props : Props) (pageSize : option JsNumber) : Showing :=
  let size := default (num_of_Z 50) pageSize in
  let pg := pagination props in
  if isLoading props then ShowingDots
  else ShowingRange
         (num_add (num_mul (num_sub (currentPage pg) (num_of_Z 1)) size)
                  (num_of_Z 1))
         (num_min (num_mul (currentPage pg) size) (totalCount pg))
         (totalCount pg).

(** *** The stand-alone team selector, [TeamFilter] *)

Definition handleTeamChange (teams : option (list Team.t)) (v : string)
    : list ParentCall :=
  let team :=
    match teams with
    | Some ts => find (fun t => String.eqb (Team.team_id t) v) ts
    | None => None
    end in
  [SetSelectedTeam team].

(** [selectedTeam?.team_id || ""], the value the selector displays. *)
Definition selectValue (selectedTeam : option Team.t) : string :=
  match selectedTeam with
  | Some team => or_else (Some (Team.team_id team)) ""
  | None => ""
  end.

(** The predicate set [weak] constrains nothing that [f] does not
    constrain the same way. *)
Definition relaxes (weak f : Filters) : Prop :=
  (Team_ID weak = "" \/ Team_ID weak = Team_ID f) /\
  (Organization_ID weak = "" \/ Organization_ID weak = Organization_ID f) /\
  (Key_Alias weak = "" \/ Key_Alias weak = Key_Alias f).

(** The field a column tests for truthiness is present but empty: the
    empty string, or the empty list of models. *)
Definition field_empty (col : Column) (key : KeyResponse) : Prop :=
  match col with
  | KeyID => token key = Val ""
  | KeyAlias => key_alias key = Val ""
  | TeamID => team_id key = Val ""
  | OrganizationID => organization_id key = Val ""
  | UserID => user_id key = Val ""
  | CreatedAt => created_at key = Val ""
  | CreatedBy => created_by key = Val ""
  | Expires => expires key = Val ""
  | BudgetReset => budget_reset_at key = Val ""
  | Models => models key = Val []
  | _ => False
  end.

(** *** Sample data *)

(** A record with an id and an alias and every other field null. *)
Definition sample_key (tok alias : Nullable string) : KeyResponse :=
  mkKey tok alias Null Null Null Null Null Null Null Null Null Null Null
        Null Null.

Definition sample_props (ks : list KeyResponse) (cur total : Z) : Props :=
  mkProps (Some ks) false
          (mkPagination (num_of_Z cur) (num_of_Z total) (num_of_Z (total * 50)))
          None None None.

(** The state after the first render of [ks] and its filter effect. *)
Definition sample_state (ks : list KeyResponse) : State :=
  filterEffect (Some ks) (initialState (Some ks) None None).

Definition team_a : Team.t := Team.mk "team-a" (Val "Alpha").
Definition team_b : Team.t := Team.mk "team-b" Null.
Definition org_a : Organization.t := Organization.mk "org-a" (Val "Acme").
Definition org_b : Organization.t := Organization.mk "org-b" Null.

(** ** Properties *)

(** *** Strings *)

Lemma app_cons (c : ascii) (s t : string) :
  String c s +:+ t = String c (s +:+ t).
Proof. reflexivity. Qed.

Lemma app_empty_l (s : string) : "" +:+ s = s.
Proof. reflexivity. Qed.

Lemma truthy_string (s : string) : truthy s = true <-> s <> "".
Proof. destruct s; cbn; split; intros; congruence. Qed.

Lemma not_truthy_string (s : string) : truthy s = false <-> s = "".
Proof. destruct s; cbn; split; intros; congruence. Qed.

Lemma startsWith_spec (s p : string) :
  startsWith s p = true <-> exists post, s = p +:+ post.
Proof.
  revert s. induction p as [|a p IH]; intros s.
  - split; [intros _; exists s; reflexivity | intros _; destruct s; reflexivity].
  - destruct s as [|b s]; cbn.
    + split; [discriminate | intros [post H]; discriminate H].
    + rewrite andb_true_iff, Ascii.eqb_eq, IH. split.
      * intros [-> [post ->]]. exists post. reflexivity.
      * intros [post H]. rewrite app_cons in H. injection H as -> ->. eauto.
Qed.

Lemma includes_spec (s x : string) :
  includes s x = true <-> exists pre post, s = pre +:+ x +:+ post.
Proof.
  induction s as [|c s IH]; cbn [includes]; rewrite orb_true_iff, startsWith_spec.
  - split.
    + intros [[post H] | H]; [| discriminate]. exists "", post. exact H.
    + intros (pre & post & H). left. destruct pre as [|d pre]; [| discriminate H].
      exists post. exact H.
  - rewrite IH. split.
    + intros [[post H] | (pre & post & H)].
      * exists "", post. exact H.
      * exists (String c pre), post. rewrite app_cons. congruence.
    + intros (pre & post & H). destruct pre as [|d pre].
      * left. exists post. exact H.
      * right. rewrite app_cons in H. injection H as _ ->. eauto.
Qed.

Lemma ascii_lower_app (s t : string) :
  ascii_lower (s +:+ t) = ascii_lower s +:+ ascii_lower t.
Proof.
  induction s as [|c s IH]; [reflexivity |].
  rewrite app_cons. cbn [ascii_lower]. rewrite app_cons. congruence.
Qed.

(** The ASCII fold keeps every character in place, so a split of the
    folded string is the image of a split of the string. *)
Lemma ascii_lower_split (s x y : string) :
  ascii_lower s = x +:+ y ->
  exists a b, s = a +:+ b /\ ascii_lower a = x /\ ascii_lower b = y.
Proof.
  revert s. induction x as [|c x IH]; intros s H.
  - exists "", s. auto.
  - destruct s as [|d s]; [discriminate H |].
    rewrite app_cons in H. cbn [ascii_lower] in H. injection H as Hc Hs.
    destruct (IH _ Hs) as (a & b & -> & <- & <-).
    exists (String d a), b. rewrite app_cons. cbn [ascii_lower]. rewrite Hc. auto.
Qed.

Lemma N_of_ascii_inj (c d : ascii) : N_of_ascii c = N_of_ascii d -> c = d.
Proof.
  intros H. rewrite <- (ascii_N_embedding c), <- (ascii_N_embedding d).
  congruence.
Qed.

(** Folding sends two characters to the same one exactly when they are
    the same letter up to case. *)
Lemma lower_char_same_letter (c d : ascii) :
  lower_char c = lower_char d <-> same_letter c d.
Proof.
  unfold lower_char, same_letter. cbv zeta.
  pose proof (N_ascii_bounded c) as Bc. pose proof (N_ascii_bounded d) as Bd.
  destruct (N.leb_spec 65 (N_of_ascii c)) as [C1|C1];
    destruct (N.leb_spec (N_of_ascii c) 90) as [C2|C2];
    destruct (N.leb_spec 65 (N_of_ascii d)) as [D1|D1];
    destruct (N.leb_spec (N_of_ascii d) 90) as [D2|D2]; cbn [andb];
    (split;
     [ intros H; apply (f_equal N_of_ascii) in H;
       rewrite ?N_ascii_embedding in H by lia; lia
     | intros [H | [[H1 H] | [H1 H]]];
       try lia;
       first [ apply N_of_ascii_inj; rewrite ?N_ascii_embedding by lia; lia
             | f_equal; apply N_of_ascii_inj; lia ] ]).
Qed.

Lemma ascii_lower_eq_ignore_case (s t : string) :
  ascii_lower s = ascii_lower t <-> eq_ignore_case s t.
Proof.
  revert t. induction s as [|c s IH]; intros [|d t]; cbn;
    try (split; [discriminate | intros []]); [tauto |].
  rewrite <- IH, <- lower_char_same_letter. split.
  - intros [= H1 H2]. auto.
  - intros [-> ->]. reflexivity.
Qed.

Lemma eq_ignore_case_empty (s : string) : eq_ignore_case "" s -> s = "".
Proof. destruct s; [reflexivity | intros []]. Qed.

Lemma is_ascii_app (s t : string) :
  is_ascii (s +:+ t) = is_ascii s && is_ascii t.
Proof.
  induction s as [|c s IH]; [reflexivity |].
  rewrite app_cons. cbn [is_ascii]. rewrite IH, andb_assoc. reflexivity.
Qed.

Lemma toLowerCase_ascii (s : string) :
  is_ascii s = true -> toLowerCase s = ascii_lower s.
Proof. unfold toLowerCase. intros ->. reflexivity. Qed.

(** [hay.toLowerCase().includes(needle.toLowerCase())]. *)
Lemma includes_lower_occurs (hay needle : string) :
  includes (toLowerCase hay) (toLowerCase needle) = true <->
  lower_occurs needle hay.
Proof. apply includes_spec. Qed.

(** On ASCII text, an occurrence after lower-casing is an occurrence up
    to the case of letters. *)
Lemma lower_occurs_ascii (needle hay : string) :
  is_ascii needle = true -> is_ascii hay = true ->
  lower_occurs needle hay <-> ci_substring needle hay.
Proof.
  intros Hn Hh. unfold lower_occurs, ci_substring.
  rewrite (toLowerCase_ascii _ Hn), (toLowerCase_ascii _ Hh). split.
  - intros (x & z & H).
    destruct (ascii_lower_split _ _ _ H) as (pre & rest & -> & <- & Hrest).
    destruct (ascii_lower_split _ _ _ Hrest) as (mid & post & -> & Hmid & <-).
    exists pre, mid, post. split; [reflexivity |].
    apply ascii_lower_eq_ignore_case, Hmid.
  - intros (pre & mid & post & -> & Hmid).
    exists (ascii_lower pre), (ascii_lower post).
    rewrite !ascii_lower_app. apply ascii_lower_eq_ignore_case in Hmid.
    congruence.
Qed.

Lemma eq_ignore_case_refl (s : string) : eq_ignore_case s s.
Proof.
  induction s as [|c s IH]; cbn; [exact I |].
  split; [left; reflexivity | exact IH].
Qed.

Lemma ci_substring_empty (hay : string) : ci_substring "" hay.
Proof. exists "", "", hay. split; [reflexivity | exact I]. Qed.

Lemma ci_substring_of_empty (needle : string) :
  ci_substring needle "" -> needle = "".
Proof.
  intros (pre & mid & post & H & Hmid).
  destruct pre; [| discriminate H]. destruct mid; [| discriminate H].
  apply eq_ignore_case_empty, Hmid.
Qed.

Lemma strict_eq_spec (x : Nullable string) (s : string) :
  strict_eq x s = true <-> x = Val s.
Proof.
  destruct x as [| |a]; cbn; [split; discriminate ..|].
  rewrite String.eqb_eq. split; congruence.
Qed.

(** *** Filter reconciliation *)

Lemma alias_filter_spec (f : string) (key : KeyResponse) :
  alias_filter f key = true <->
  exists a, key_alias key = Val a /\ a <> "" /\ lower_occurs f a.
Proof.
  unfold alias_filter.
  destruct (key_alias key) as [| |a]; cbn.
  1,2: split; [discriminate | intros (a & H & _); discriminate H].
  rewrite andb_true_iff, includes_lower_occurs.
  change (Nullable_truthy (Val a)) with (truthy a). rewrite truthy_string. split.
  - intros [Ha H]. eauto.
  - intros (a' & [= <-] & Ha & H). auto.
Qed.

Lemma guarded_spec (f : string) (b : bool) (P : Prop) :
  (f <> "" -> (b = true <-> P)) ->
  negb (truthy f) || b = true <-> (f <> "" -> P).
Proof.
  intros H. destruct f as [|c f]; cbn.
  - split; [intros _ Hne; congruence | reflexivity].
  - assert (Hne : String c f <> "") by discriminate.
    rewrite (H Hne). split; auto.
Qed.

Lemma passes_spec (f : Filters) (key : KeyResponse) :
  passes f key = true <-> satisfies f key.
Proof.
  unfold passes, satisfies. rewrite !andb_true_iff.
  rewrite (guarded_spec (Team_ID f) _ (team_id key = Val (Team_ID f)))
    by (intros _; apply strict_eq_spec).
  rewrite (guarded_spec (Organization_ID f) _
             (organization_id key = Val (Organization_ID f)))
    by (intros _; apply strict_eq_spec).
  rewrite (guarded_spec (Key_Alias f) _
             (exists a, key_alias key = Val a /\ a <> "" /\
                        lower_occurs (Key_Alias f) a))
    by (intros _; apply alias_filter_spec).
  tauto.
Qed.

#[global] Instance satisfies_dec (f : Filters) (key : KeyResponse) :
  Decision (satisfies f key).
Proof.
  destruct (decide (passes f key = true)) as [H|H].
  - left. apply passes_spec, H.
  - right. intros Hs. apply H, passes_spec, Hs.
Defined.

Lemma filter_guarded {A} (f : string) (p : A -> bool) (l : list A) :
  (if truthy f then List.filter p l else l) =
  List.filter (fun x => negb (truthy f) || p x) l.
Proof.
  destruct (truthy f); cbn; [reflexivity |].
  induction l as [|x l IH]; cbn; congruence.
Qed.

Lemma filter_filter {A} (p q : A -> bool) (l : list A) :
  List.filter q (List.filter p l) = List.filter (fun x => p x && q x) l.
Proof.
  induction l as [|x l IH]; cbn; [reflexivity |].
  destruct (p x); cbn; [destruct (q x) |]; congruence.
Qed.

(** The three staged passes are one pass with the conjunction. *)
Lemma applyFilters_passes (ks : list KeyResponse) (f : Filters) :
  applyFilters (Some ks) f = List.filter (passes f) ks.
Proof.
  unfold applyFilters. cbv zeta.
  rewrite !filter_guarded, !filter_filter.
  apply List.filter_ext. intros key. unfold passes. apply andb_assoc.
Qed.

Lemma filter_passes_satisfies (ks : list KeyResponse) (f : Filters) :
  List.filter (passes f) ks = filter (satisfies f) ks.
Proof.
  induction ks as [|k ks IH]; [reflexivity |].
  cbn [List.filter]. rewrite filter_cons, <- IH.
  destruct (passes f k) eqn:Hp; destruct (decide (satisfies f k)) as [Hs|Hs];
    try reflexivity.
  - exfalso. apply Hs, passes_spec, Hp.
  - apply passes_spec in Hs. congruence.
Qed.

Lemma satisfies_ascii (f : Filters) (key : KeyResponse) :
  is_ascii (Key_Alias f) = true ->
  (forall a, key_alias key = Val a -> is_ascii a = true) ->
  satisfies f key <-> satisfies_ignoring_case f key.
Proof.
  intros Hf Hk. unfold satisfies, satisfies_ignoring_case.
  assert (E : Key_Alias f <> "" ->
    ((exists a, key_alias key = Val a /\ a <> "" /\
                lower_occurs (Key_Alias f) a) <->
     (exists a, key_alias key = Val a /\ ci_substring (Key_Alias f) a))).
  { intros Hne. split.
    - intros (a & Ha & _ & H). exists a. split; [exact Ha |].
      apply (lower_occurs_ascii _ _ Hf (Hk a Ha)), H.
    - intros (a & Ha & H). exists a. split; [exact Ha |]. split.
      + intros ->. apply Hne, ci_substring_of_empty, H.
      + apply (lower_occurs_ascii _ _ Hf (Hk a Ha)), H. }
  split; intros (H1 & H2 & H3); (split; [exact H1 |]); (split; [exact H2 |]);
    intros Hne; apply (E Hne), H3, Hne.
Qed.

(** C1, amended. For every key list and predicate set, the recomputed
    filtered list is the input list restricted to the records that
    satisfy every non-empty predicate: team-id equality, organization-id
    equality, and occurrence of the lower-cased alias predicate in the
    lower-cased, non-empty alias of the record. It is obtained by the
    three passes in that order. When the alias predicate and the
    record's alias are ASCII, the alias test is the occurrence of the
    predicate in the alias up to the case of letters. *)
Theorem filtered_keys_conjunction
    (ks : list KeyResponse) (st : State) :
  let f := filters st in
  let staged (v : string) (p : string -> KeyResponse -> bool) l :=
    if truthy v then List.filter (p v) l else l in
  filteredKeys (filterEffect (Some ks) st) = Some (filter (satisfies f) ks) /\
  applyFilters (Some ks) f =
    staged (Key_Alias f) alias_filter
      (staged (Organization_ID f) org_filter
         (staged (Team_ID f) team_filter ks)) /\
  applyFilters (Some ks) f `sublist_of` ks /\
  (forall key, key ∈ applyFilters (Some ks) f <-> key ∈ ks /\ satisfies f key) /\
  (is_ascii (Key_Alias f) = true ->
   forall key, (forall a, key_alias key = Val a -> is_ascii a = true) ->
     (satisfies f key <-> satisfies_ignoring_case f key)).
Proof.
  intros f staged.
  assert (E : applyFilters (Some ks) f = filter (satisfies f) ks)
    by (rewrite applyFilters_passes; apply filter_passes_satisfies).
  split; [change (Some (applyFilters (Some ks) f) = Some (filter (satisfies f) ks));
          rewrite E; reflexivity |].
  split; [reflexivity |].
  rewrite E. split; [apply sublist_filter |].
  split; [| intros Hf key Hk; apply satisfies_ascii; assumption].
  intros key. rewrite list_elem_of_filter. tauto.
Qed.

(** C2. Recomputation is a function of the key list and the predicate
    set alone: two states holding the same predicates get the same
    filtered list whatever else they hold (a previous filtered list
    included), recomputing twice changes nothing, and the new state
    differs from the old one in the filtered list only. *)
Theorem filter_recomputation_stateless
    (ks : option (list KeyResponse)) (st1 st2 : State) :
  filters st1 = filters st2 ->
  filteredKeys (filterEffect ks st1) = filteredKeys (filterEffect ks st2) /\
  filterEffect ks (filterEffect ks st1) = filterEffect ks st1 /\
  filterEffect ks st1 = setFilteredKeys (applyFilters ks (filters st1)) st1.
Proof.
  intros H. unfold filterEffect. cbn. rewrite H. auto.
Qed.

(** C3. With the three predicates empty the filter is the identity on
    every key list. *)
Theorem empty_filters_identity (ks : list KeyResponse) (st : State) :
  applyFilters (Some ks) no_filters = ks /\
  filteredKeys (filterEffect (Some ks) (setFilters no_filters st)) = Some ks.
Proof. split; reflexivity. Qed.

(** *** Lookup lists *)

Lemma keepLarger_spec {A} (candidate prev : list A) :
  ((length prev < length candidate)%nat -> keepLarger candidate prev = candidate) /\
  ((length candidate <= length prev)%nat -> keepLarger candidate prev = prev) /\
  (length prev <= length (keepLarger candidate prev))%nat.
Proof.
  unfold keepLarger.
  destruct (Nat.ltb_spec (length prev) (length candidate)); repeat split; lia.
Qed.

Lemma allTeams_teamsPropEffect (ts : list Team.t) (st : State) :
  allTeams (teamsPropEffect (Some ts) st) = keepLarger ts (allTeams st).
Proof.
  unfold teamsPropEffect, keepLarger.
  destruct (Nat.ltb_spec 0 (length ts)) as [H|H]; [reflexivity |].
  destruct (Nat.ltb_spec (length (allTeams st)) (length ts)); [lia | reflexivity].
Qed.

Lemma allOrganizations_organizationsPropEffect
    (os : list Organization.t) (st : State) :
  allOrganizations (organizationsPropEffect (Some os) st) =
  keepLarger os (allOrganizations st).
Proof.
  unfold organizationsPropEffect, keepLarger.
  destruct (Nat.ltb_spec 0 (length os)) as [H|H]; [reflexivity |].
  destruct (Nat.ltb_spec (length (allOrganizations st)) (length os));
    [lia | reflexivity].
Qed.

(** C4. A candidate list of teams (or organizations) received from the
    parent replaces the held list exactly when it is strictly longer; at
    equal or smaller length the held list stays, so the held list never
    gets shorter through parent updates. *)
Theorem parent_lists_grow_only
    (ts : list Team.t) (os : list Organization.t) (st : State) :
  let N := length (allTeams st) in
  let M := length ts in
  let N' := length (allOrganizations st) in
  let M' := length os in
  (((N < M)%nat -> allTeams (teamsPropEffect (Some ts) st) = ts) /\
   ((M <= N)%nat -> allTeams (teamsPropEffect (Some ts) st) = allTeams st) /\
   (N <= length (allTeams (teamsPropEffect (Some ts) st)))%nat) /\
  (((N' < M')%nat ->
      allOrganizations (organizationsPropEffect (Some os) st) = os) /\
   ((M' <= N')%nat ->
      allOrganizations (organizationsPropEffect (Some os) st) =
      allOrganizations st) /\
   (N' <= length (allOrganizations (organizationsPropEffect (Some os) st)))%nat).
Proof.
  cbv zeta.
  rewrite allTeams_teamsPropEffect, allOrganizations_organizationsPropEffect.
  split; apply keepLarger_spec.
Qed.

(** C8. The lists fetched at mount time do not go through the grow-only
    merge: a fetched list of teams or organizations that is not empty
    replaces the held list whatever the held list's length. *)
Theorem fetched_lists_replace
    (tok : string) (aliases : list string)
    (teamsData : list Team.t) (orgsData : list Organization.t) (st : State) :
  teamsData <> [] ->
  orgsData <> [] ->
  tok <> "" ->
  allTeams (teamsLoaded teamsData st) = teamsData /\
  allOrganizations (orgsLoaded orgsData st) = orgsData /\
  allTeams (mountEffect (Some tok) aliases teamsData orgsData st) = teamsData /\
  allOrganizations (mountEffect (Some tok) aliases teamsData orgsData st) =
    orgsData.
Proof.
  intros Ht Ho Htok.
  unfold mountEffect, loadAllFilterData, teamsLoaded, orgsLoaded.
  destruct teamsData as [|t ts]; [congruence |].
  destruct orgsData as [|o os]; [congruence |].
  destruct tok; [congruence |]. repeat split.
Qed.

(** *** Pagination *)

Lemma click_spec (b : ButtonProps) (c : ParentCall) :
  In c (click b) <-> disabled b = false /\ c = onClick b.
Proof.
  unfold click. destruct (disabled b); cbn; intuition congruence.
Qed.

Lemma handleFilterChange_no_page
    (m : gmap string string) (st : State) (page : JsNumber) :
  ~ In (OnPageChange page) (snd (handleFilterChange m st)).
Proof.
  cbn. unfold teamCalls, orgCalls. rewrite in_app_iff.
  intros [H|H];
    repeat match type of H with
           | In _ (match ?x with _ => _ end) => destruct x
           | In _ (if ?x then _ else _) => destruct x
           end; cbn in H; intuition discriminate.
Qed.

(** What is on screen, read back from a render. *)
Lemma render_inv (props : Props) (st : State) :
  match render props st with
  | Throws =>
      keys props = None /\ exists id, selectedKeyId st = Val id /\ id <> ""
  | Shows [KeyInfoView id keyData ts] =>
      selectedKeyId st = Val id /\ id <> "" /\ ts = allTeams st /\
      exists ks, keys props = Some ks /\
                 keyData = find (fun k => strict_eq (token k) id) ks
  | Shows [TableView f prev next rows] =>
      truthy (selectedKeyId st) = false /\ f = filters st /\
      prev = previousButton props /\ next = nextButton props /\
      rows = filteredKeys st
  | Shows _ => False
  end.
Proof.
  unfold render, cond.
  destruct (selectedKeyId st) as [| |id]; [cbn; auto | cbn; auto |].
  destruct (truthy id) eqn:Hid; [| cbn; rewrite Hid; auto].
  apply truthy_string in Hid.
  destruct (keys props) as [ks|]; [| eauto]. repeat split; eauto.
Qed.


(** *** Filter callbacks and the parent's selection *)

Lemma find_Some {A} (p : A -> bool) (xs : list A) (x : A) :
  find p xs = Some x -> In x xs /\ p x = true.
Proof.
  induction xs as [|y xs IH]; cbn; [discriminate |].
  destruct (p y) eqn:Hp; [intros [= ->]; auto | intros H; apply IH in H; tauto].
Qed.

Lemma find_None {A} (p : A -> bool) (xs : list A) :
  find p xs = None <-> forall x, In x xs -> p x = false.
Proof.
  induction xs as [|y xs IH]; cbn; [split; [intros _ x [] | reflexivity] |].
  destruct (p y) eqn:Hp.
  - split; [discriminate | intros H; rewrite (H y) in Hp by auto; discriminate].
  - rewrite IH. split; [intros H x [<-|Hx]; auto | auto].
Qed.

Lemma teamCalls_spec (m : gmap string string) (st : State) (c : ParentCall) :
  In c (teamCalls m st) <->
  exists v team,
    m !! "Team ID" = Some v /\ v <> "" /\
    find (fun t => String.eqb (Team.team_id t) v) (allTeams st) = Some team /\
    c = SetSelectedTeam (Some team).
Proof.
  unfold teamCalls. destruct (m !! "Team ID") as [v|].
  2: { split; [intros [] | intros (v & t & [=] & _)]. }
  destruct (truthy v) eqn:Hv.
  - apply truthy_string in Hv. destruct (find _ _) as [team|] eqn:Hf.
    + cbn. split.
      * intros [<-|[]]. exists v, team. auto.
      * intros (v' & t & [= <-] & _ & Hf' & ->). left. congruence.
    + split; [intros [] | intros (v' & t & [= <-] & _ & Hf' & _); congruence].
  - apply not_truthy_string in Hv.
    split; [intros [] | intros (v' & t & [= <-] & Hne & _); congruence].
Qed.

Lemma orgCalls_spec (m : gmap string string) (st : State) (c : ParentCall) :
  In c (orgCalls m st) <->
  exists v org,
    m !! "Organization ID" = Some v /\ v <> "" /\
    find (fun o => String.eqb (Organization.organization_id o) v)
         (allOrganizations st) = Some org /\
    c = SetCurrentOrg (Some org).
Proof.
  unfold orgCalls. destruct (m !! "Organization ID") as [v|].
  2: { split; [intros [] | intros (v & t & [=] & _)]. }
  destruct (truthy v) eqn:Hv.
  - apply truthy_string in Hv. destruct (find _ _) as [org|] eqn:Hf.
    + cbn. split.
      * intros [<-|[]]. exists v, org. auto.
      * intros (v' & t & [= <-] & _ & Hf' & ->). left. congruence.
    + split; [intros [] | intros (v' & t & [= <-] & _ & Hf' & _); congruence].
  - apply not_truthy_string in Hv.
    split; [intros [] | intros (v' & t & [= <-] & Hne & _); congruence].
Qed.

Lemma or_else_empty (x : option string) :
  or_else x "" = "" <-> forall v, x = Some v -> v = "".
Proof.
  destruct x as [[|c s]|]; cbn; split; try congruence.
  intros H. discriminate (H _ eq_refl).
Qed.

(** C10. [handleFilterChange] calls [setSelectedTeam] (resp.
    [setCurrentOrg]) only with an entry of the held lookup list whose id
    is the new, non-empty Team ID (resp. Organization ID) value, and
    calls nothing else; with the Team ID (resp. Organization ID) value
    cleared, the parent's selected team (resp. organization) is left as
    it was. Only [handleFilterReset] sets both to null. *)
Theorem filter_change_parent_frame
    (m : gmap string string) (st : State) (parent : Parent) :
  let calls := snd (handleFilterChange m st) in
  (forall c, In c calls ->
     (exists team, c = SetSelectedTeam (Some team) /\
        In team (allTeams st) /\ Team.team_id team <> "" /\
        m !! "Team ID" = Some (Team.team_id team)) \/
     (exists org, c = SetCurrentOrg (Some org) /\
        In org (allOrganizations st) /\
        Organization.organization_id org <> "" /\
        m !! "Organization ID" = Some (Organization.organization_id org))) /\
  (Team_ID (filters (fst (handleFilterChange m st))) = "" ->
     selectedTeam (runCalls calls parent) = selectedTeam parent) /\
  (Organization_ID (filters (fst (handleFilterChange m st))) = "" ->
     currentOrg (runCalls calls parent) = currentOrg parent) /\
  selectedTeam (runCalls (snd (handleFilterReset st)) parent) = None /\
  currentOrg (runCalls (snd (handleFilterReset st)) parent) = None.
Proof.
  intros calls. split; [| split; [| split]].
  - intros c Hc. unfold calls in Hc. cbn in Hc. apply in_app_iff in Hc.
    destruct Hc as [Hc|Hc].
    + left. apply teamCalls_spec in Hc.
      destruct Hc as (v & team & Hm & Hv & Hf & ->).
      apply find_Some in Hf. destruct Hf as [Hin Heq].
      apply String.eqb_eq in Heq. subst v. eauto 6.
    + right. apply orgCalls_spec in Hc.
      destruct Hc as (v & org & Hm & Hv & Hf & ->).
      apply find_Some in Hf. destruct Hf as [Hin Heq].
      apply String.eqb_eq in Heq. subst v. eauto 6.
  - cbn. intros H. rewrite or_else_empty in H.
    assert (Ht : teamCalls m st = []).
    { unfold teamCalls. destruct (m !! "Team ID") as [v|]; [| reflexivity].
      rewrite (H v eq_refl). reflexivity. }
    unfold calls. cbn. rewrite Ht. cbn.
    unfold orgCalls.
    repeat match goal with
           | |- context [match ?x with _ => _ end] => destruct x
           end; reflexivity.
  - cbn. intros H. rewrite or_else_empty in H.
    assert (Ho : orgCalls m st = []).
    { unfold orgCalls. destruct (m !! "Organization ID") as [v|]; [| reflexivity].
      rewrite (H v eq_refl). reflexivity. }
    unfold calls. cbn. rewrite Ho, app_nil_r.
    unfold teamCalls.
    repeat match goal with
           | |- context [match ?x with _ => _ end] => destruct x
           end; reflexivity.
  - split; reflexivity.
Qed.

(** *** Cells *)

Lemma findTeam_None (st : State) (teamId : Nullable string) :
  findTeam st teamId = None <->
  forall t, In t (allTeams st) -> teamId <> Val (Team.team_id t).
Proof.
  unfold findTeam. rewrite find_None. split; intros H t Ht.
  - rewrite <- strict_eq_spec, (H t Ht). discriminate.
  - specialize (H t Ht). rewrite <- strict_eq_spec in H.
    destruct (strict_eq _ _); congruence.
Qed.

Lemma strict_eq_absent (x : Nullable string) (s : string) :
  absent x -> strict_eq x s = false.
Proof. destruct x; cbn; [reflexivity | reflexivity | intros []]. Qed.

Lemma cond_absent {A B} `{Truthy A} (v : Nullable A) (yes : A -> B) (no : B) :
  absent v -> cond v yes no = no.
Proof. destruct v; cbn; [reflexivity | reflexivity | intros []]. Qed.

Lemma null_absent {A} (v : Nullable A) : v = Null -> absent v.
Proof. intros ->. exact I. Qed.

Lemma shows_text (p : string) : In p placeholders -> shows_placeholder (Text p).
Proof. intros H. exists p. cbn. auto. Qed.

(** C6. A record whose team id matches no known team shows "Unknown" as
    team alias; a null expiry shows "Never"; a null budget shows
    "Unlimited". *)
Theorem fallback_cells (st : State) (row : Row) :
  let key := original row in
  ((forall t, In t (allTeams st) -> team_id key <> Val (Team.team_id t)) ->
     cell st TeamAlias row = Text "Unknown") /\
  (expires key = Null -> cell st Expires row = Text "Never") /\
  (max_budget key = Null -> cell st Budget row = Text "Unlimited").
Proof.
  cbv zeta. repeat split.
  - intros H. apply findTeam_None in H. cbn. rewrite H. reflexivity.
  - intros H. cbn. rewrite H. reflexivity.
  - intros H. cbn. rewrite H. reflexivity.
Qed.

(** C7, amended. Every column renderer other than Secret Key and Spend
    shows one of the placeholders "-", "Unknown", "Never", "Unlimited"
    when the field it reads is null, when that field is missing (Rate
    Limits apart, which tests for null only), or when the team or user
    it looks up by id is not in the held list. *)
Theorem placeholder_fallback (st : State) (col : Column) (row : Row) :
  col <> SecretKey ->
  col <> Spend ->
  (col <> RateLimits /\ field_absent col (original row)) \/
  field_null col (original row) \/
  unresolved st col (original row) ->
  shows_placeholder (cell st col row).
Proof.
  intros Hsk Hsp H.
  assert (Hdash : In "-" placeholders) by (cbn; auto).
  assert (Hunk : In "Unknown" placeholders) by (cbn; auto).
  assert (Hnev : In "Never" placeholders) by (cbn; auto).
  assert (Hunl : In "Unlimited" placeholders) by (cbn; auto 6).
  assert (Habs : col = RateLimits \/ unresolved st col (original row) \/
                 (col <> RateLimits /\ field_absent col (original row))).
  { destruct H as [H | [H | H]]; [tauto | | tauto].
    destruct (decide (col = RateLimits)); [tauto |]. right. right.
    split; [assumption |].
    destruct col; cbn in H |- *; try (apply null_absent; exact H); tauto. }
  destruct col; try congruence; cbn [cell];
    try (destruct Habs as [Hc | [Hu | [_ Ha]]];
         [discriminate Hc | destruct Hu | cbn in Ha];
         rewrite ?(cond_absent _ _ _ Ha);
         first [ apply shows_text; assumption
               | eexists; split; [| cbn; left; reflexivity]; assumption ]).
  - (* the expander reads no field *)
    cbn in H. tauto.
  - (* Team Alias *)
    destruct Habs as [Hc | [Hu | [_ Ha]]]; [discriminate Hc | |].
    + cbn in Hu. rewrite Hu. apply shows_text, Hunk.
    + cbn in Ha. replace (findTeam st (team_id (original row))) with (@None Team.t).
      * apply shows_text, Hunk.
      * symmetry. apply find_None. intros t _. apply strict_eq_absent, Ha.
  - (* User Email *)
    destruct Habs as [Hc | [Hu | [_ Ha]]]; [discriminate Hc | |].
    + cbn in Hu. rewrite Hu. apply shows_text, Hdash.
    + cbn in Ha. replace (findUser st (user_id (original row)))
        with (@None UserResponse.t).
      * apply shows_text, Hdash.
      * symmetry. apply find_None. intros t _. apply strict_eq_absent, Ha.
  - (* Budget *)
    destruct Habs as [Hc | [Hu | [_ Ha]]]; [discriminate Hc | destruct Hu |].
    cbn in Ha. destruct (max_budget (original row)); [| | destruct Ha];
      apply shows_text, Hunl.
  - (* Models *)
    destruct Habs as [Hc | [Hu | [_ Ha]]]; [discriminate Hc | destruct Hu |].
    cbn in Ha. exists "-". split; [exact Hdash |].
    destruct (models (original row)); [| | destruct Ha]; cbn; auto.
  - (* Rate Limits *)
    destruct H as [[Hc _] | [H | H]]; [congruence | | destruct H].
    exists "Unlimited". split; [exact Hunl |].
    cbn in H. destruct H as [-> | ->]; cbn; rewrite ?in_app_iff; cbn; auto 7.
Qed.

(** What the two excepted columns render: the raw value, nothing at all
    when it is null or missing, and the spend as a fixed-point numeral. *)
Lemma secret_key_and_spend_cells (st : State) (row : Row) :
  cell st SecretKey row = Element Span [embed_string (key_name (original row))] /\
  (absent (key_name (original row)) -> texts (cell st SecretKey row) = []) /\
  cell st Spend row = Text (Number_toFixed4 (spend (original row))).
Proof.
  repeat split. cbn.
  destruct (key_name (original row)); cbn; [reflexivity | reflexivity | intros []].
Qed.

(** *** Table and detail views *)

(** Effects and resolved fetches touch neither the selection nor the
    predicate set. *)
Lemma update_frame (st : State) (u : Props * Update) :
  selectedKeyId (update st u) = selectedKeyId st /\
  filters (update st u) = filters st.
Proof.
  destruct u as [props []]; cbn;
    unfold teamsPropEffect, organizationsPropEffect, teamsLoaded, orgsLoaded;
    repeat match goal with
           | |- context [match ?x with _ => _ end] => destruct x
           end; auto.
Qed.

Lemma updates_frame (us : list (Props * Update)) (st : State) :
  selectedKeyId (updates us st) = selectedKeyId st /\
  filters (updates us st) = filters st.
Proof.
  unfold updates. revert st. induction us as [|u us IH]; intros st; [auto |].
  cbn. destruct (IH (update st u)) as [-> ->]. apply update_frame.
Qed.

Lemma render_selected (props : Props) (st : State) (id : string) :
  selectedKeyId st = Val id -> id <> "" ->
  render props st =
  match keys props with
  | Some ks =>
      Shows [KeyInfoView id (find (fun k => strict_eq (token k) id) ks)
                         (allTeams st)]
  | None => Throws
  end.
Proof.
  intros Hsel Hid. unfold render, cond. rewrite Hsel.
  apply truthy_string in Hid. rewrite Hid. reflexivity.
Qed.

Lemma render_unselected (props : Props) (st : State) :
  truthy (selectedKeyId st) = false ->
  render props st =
  Shows [TableView (filters st) (previousButton props) (nextButton props)
                   (filteredKeys st)].
Proof.
  intros H. unfold render, cond.
  destruct (selectedKeyId st) as [| |id]; [reflexivity | reflexivity |].
  cbn in H. change (Nullable_truthy (Val id)) with (truthy id) in H.
  rewrite H. reflexivity.
Qed.

Lemma selected_or_not (st : State) :
  (exists id, selectedKeyId st = Val id /\ id <> "") \/
  truthy (selectedKeyId st) = false.
Proof.
  destruct (selectedKeyId st) as [| |id]; [right; reflexivity ..|].
  destruct id as [|c id]; [right; reflexivity |].
  left. exists (String c id). split; [reflexivity | discriminate].
Qed.

Lemma detail_visible_spec (props : Props) (st : State) :
  detail_visible (render props st) = true <->
  keys props <> None /\ exists id, selectedKeyId st = Val id /\ id <> "".
Proof.
  destruct (selected_or_not st) as [(id & Hsel & Hid) | Hno].
  - rewrite (render_selected props st id Hsel Hid).
    destruct (keys props) as [ks|]; cbn.
    + split; [intros _; split; [discriminate | eauto] | reflexivity].
    + split; [discriminate | intros [H _]; congruence].
  - rewrite (render_unselected props st Hno). cbn.
    split; [discriminate |]. intros (_ & id & Hsel & Hid).
    rewrite Hsel in Hno. cbn in Hno.
    change (Nullable_truthy (Val id)) with (truthy id) in Hno.
    apply not_truthy_string in Hno. congruence.
Qed.

(** C5, amended. A render throws exactly when an identifier is selected
    and the key list is null; otherwise exactly one of the two views is
    on screen: the detail view when the selected identifier is a
    non-empty string, the table when it is null. While the detail view
    is open the only possible user action is to close it, and closing it
    brings the table back with the predicate set that was held before
    the selection, whatever effects ran in between. *)
Theorem detail_table_switch
    (props props' : Props) (st : State) (v : Nullable string)
    (us : list (Props * Update)) :
  let opened := updates us (setSelectedKeyId v st) in
  (render props st = Throws <->
     keys props = None /\ exists id, selectedKeyId st = Val id /\ id <> "") /\
  (render props st <> Throws ->
     (details_shown (render props st) + tables_shown (render props st) = 1)%nat) /\
  (detail_visible (render props st) = true <->
     keys props <> None /\ exists id, selectedKeyId st = Val id /\ id <> "") /\
  (forall id ks, selectedKeyId st = Val id -> id <> "" -> keys props = Some ks ->
     render props st =
     Shows [KeyInfoView id (find (fun k => strict_eq (token k) id) ks)
                        (allTeams st)]) /\
  (selectedKeyId st = Null ->
     render props st =
     Shows [TableView (filters st) (previousButton props) (nextButton props)
                      (filteredKeys st)]) /\
  (detail_visible (render props' opened) = true ->
     (forall ev, ev <> CloseDetail -> handle props' opened ev = None) /\
     exists closed,
       handle props' opened CloseDetail = Some (closed, []) /\
       selectedKeyId closed = Null /\
       render props' closed =
       Shows [TableView (filters st) (previousButton props') (nextButton props')
                        (filteredKeys opened)]).
Proof.
  intros opened.
  split; [| split; [| split; [apply detail_visible_spec |]]].
  { destruct (selected_or_not st) as [(id & Hsel & Hid) | Hno].
    - rewrite (render_selected props st id Hsel Hid).
      destruct (keys props) as [ks|].
      + split; [discriminate | intros [H _]; discriminate H].
      + split; [eauto | reflexivity].
    - rewrite (render_unselected props st Hno).
      split; [discriminate |]. intros (_ & id & Hsel & Hid).
      rewrite Hsel in Hno. cbn in Hno.
      change (Nullable_truthy (Val id)) with (truthy id) in Hno.
      apply not_truthy_string in Hno. congruence. }
  { intros Hthrow.
    destruct (selected_or_not st) as [(id & Hsel & Hid) | Hno].
    - rewrite (render_selected props st id Hsel Hid) in Hthrow |- *.
      destruct (keys props) as [ks|]; [reflexivity | congruence].
    - rewrite (render_unselected props st Hno). reflexivity. }
  split.
  { intros id ks Hsel Hid Hks.
    rewrite (render_selected props st id Hsel Hid), Hks. reflexivity. }
  split.
  { intros Hsel. apply render_unselected. rewrite Hsel. reflexivity. }
  intros Hopen. apply detail_visible_spec in Hopen.
  destruct Hopen as (Hkeys & id & Hsel & Hid).
  assert (Hr : render props' opened =
               match keys props' with
               | Some ks =>
                   Shows [KeyInfoView id
                            (find (fun k => strict_eq (token k) id) ks)
                            (allTeams opened)]
               | None => Throws
               end) by (apply render_selected; assumption).
  destruct (keys props') as [ks|]; [| congruence].
  split.
  - intros ev Hev. unfold handle. rewrite Hr. destruct ev; congruence.
  - exists (setSelectedKeyId Null opened). unfold handle. rewrite Hr.
    split; [reflexivity |]. split; [reflexivity |].
    destruct (updates_frame us (setSelectedKeyId v st)) as [_ Hf].
    fold opened in Hf. rewrite render_unselected by reflexivity.
    cbn. rewrite Hf. reflexivity.
Qed.

(** ** Further properties of the component *)

(** *** Algebra of the filter passes *)

Lemma filter_sublist_impl {A} (p q : A -> bool) (l : list A) :
  (forall x, p x = true -> q x = true) ->
  List.filter p l `sublist_of` List.filter q l.
Proof.
  intros Hpq. induction l as [|x l IH]; cbn; [constructor |].
  destruct (p x) eqn:Hp.
  - rewrite (Hpq x Hp). constructor. exact IH.
  - destruct (q x); [constructor |]; exact IH.
Qed.

Lemma eq_ignore_case_truthy (s t : string) :
  eq_ignore_case s t -> truthy s = truthy t.
Proof. destruct s, t; cbn; tauto. Qed.

(** X1. Filtering in two rounds does not depend on the order of the
    rounds, and filtering a filtered list again with the same predicate
    set changes nothing. *)
Theorem filter_rounds_commute (ks : list KeyResponse) (f1 f2 : Filters) :
  applyFilters (Some (applyFilters (Some ks) f1)) f2 =
  applyFilters (Some (applyFilters (Some ks) f2)) f1 /\
  applyFilters (Some (applyFilters (Some ks) f1)) f1 = applyFilters (Some ks) f1.
Proof.
  rewrite !applyFilters_passes, !filter_filter. split.
  - apply List.filter_ext. intros key. apply andb_comm.
  - apply List.filter_ext. intros key. apply andb_diag.
Qed.

(** X2. Clearing predicates only widens the result: the list filtered
    by a predicate set is a sub-list (same order) of the list filtered by
    any set obtained from it by emptying some of its predicates. *)
Theorem relaxed_filters_widen (ks : list KeyResponse) (weak f : Filters) :
  relaxes weak f ->
  applyFilters (Some ks) f `sublist_of` applyFilters (Some ks) weak.
Proof.
  intros (Ht & Ho & Ha). rewrite !applyFilters_passes.
  apply filter_sublist_impl. intros key. unfold passes.
  rewrite !andb_true_iff. intros [[H1 H2] H3]. repeat split.
  - destruct Ht as [-> | ->]; [reflexivity | exact H1].
  - destruct Ho as [-> | ->]; [reflexivity | exact H2].
  - destruct Ha as [-> | ->]; [reflexivity | exact H3].
Qed.

(** X3. The case of the letters A-Z in an ASCII Key Alias predicate is
    irrelevant: two predicate sets that agree on team and organization
    and whose alias texts are ASCII and equal up to the case of letters
    select the same records, whatever the records' aliases. *)
Theorem alias_predicate_ignores_case (ks : list KeyResponse) (f1 f2 : Filters) :
  Team_ID f1 = Team_ID f2 ->
  Organization_ID f1 = Organization_ID f2 ->
  is_ascii (Key_Alias f1) = true ->
  is_ascii (Key_Alias f2) = true ->
  eq_ignore_case (Key_Alias f1) (Key_Alias f2) ->
  applyFilters (Some ks) f1 = applyFilters (Some ks) f2.
Proof.
  intros Ht Ho A1 A2 Ha. rewrite !applyFilters_passes.
  apply List.filter_ext. intros key. unfold passes, alias_filter.
  rewrite Ht, Ho, (eq_ignore_case_truthy _ _ Ha).
  rewrite (toLowerCase_ascii _ A1), (toLowerCase_ascii _ A2).
  apply ascii_lower_eq_ignore_case in Ha. rewrite Ha. reflexivity.
Qed.

(** *** What a filter change does to the parent's selection *)

Lemma find_is_Some {A} (p : A -> bool) (xs : list A) (x : A) :
  In x xs -> p x = true -> exists y, find p xs = Some y.
Proof.
  intros Hin Hp. destruct (find p xs) as [y|] eqn:Hf; [eauto |].
  rewrite find_None in Hf. rewrite (Hf x Hin) in Hp. discriminate.
Qed.

Lemma runCalls_app (cs ds : list ParentCall) (p : Parent) :
  runCalls (cs ++ ds) p = runCalls ds (runCalls cs p).
Proof. apply fold_left_app. Qed.

Lemma orgCalls_selectedTeam (m : gmap string string) (st : State) (p : Parent) :
  selectedTeam (runCalls (orgCalls m st) p) = selectedTeam p.
Proof.
  unfold orgCalls.
  repeat match goal with
         | |- context [match ?x with _ => _ end] => destruct x
         end; reflexivity.
Qed.

Lemma teamCalls_currentOrg (m : gmap string string) (st : State) (p : Parent) :
  currentOrg (runCalls (teamCalls m st) p) = currentOrg p.
Proof.
  unfold teamCalls.
  repeat match goal with
         | |- context [match ?x with _ => _ end] => destruct x
         end; reflexivity.
Qed.

Lemma or_else_Some (v : string) : v <> "" -> or_else (Some v) "" = v.
Proof. destruct v; [congruence | reflexivity]. Qed.

Lemma known_team_selected
    (m : gmap string string) (st : State) (parent : Parent) (v : string) :
  m !! "Team ID" = Some v ->
  v <> "" ->
  (exists t, In t (allTeams st) /\ Team.team_id t = v) ->
  exists team, In team (allTeams st) /\ Team.team_id team = v /\
    selectedTeam (runCalls (snd (handleFilterChange m st)) parent) = Some team.
Proof.
  intros Hm Hv (t & Hin & Hid). cbn [snd handleFilterChange].
  rewrite runCalls_app, orgCalls_selectedTeam.
  unfold teamCalls. rewrite Hm.
  apply truthy_string in Hv as Htr. rewrite Htr.
  destruct (find_is_Some (fun t => String.eqb (Team.team_id t) v) _ t Hin)
    as [team Hf]; [apply String.eqb_eq, Hid |].
  rewrite Hf. apply find_Some in Hf. destruct Hf as [Hin' Heq].
  apply String.eqb_eq in Heq. exists team. auto.
Qed.

(** X4. When the applied Team ID value is not empty, the predicate set
    takes it whether or not a team is known by that id; the parent's
    selected team becomes a held team with that id when there is one and
    is left as it was when there is none. *)
Theorem filter_change_selects_team
    (m : gmap string string) (st : State) (parent : Parent) (v : string) :
  m !! "Team ID" = Some v ->
  v <> "" ->
  let r := handleFilterChange m st in
  Team_ID (filters (fst r)) = v /\
  ((exists t, In t (allTeams st) /\ Team.team_id t = v) ->
     exists team, In team (allTeams st) /\ Team.team_id team = v /\
       selectedTeam (runCalls (snd r) parent) = Some team) /\
  ((forall t, In t (allTeams st) -> Team.team_id t <> v) ->
     selectedTeam (runCalls (snd r) parent) = selectedTeam parent).
Proof.
  intros Hm Hv r. unfold r.
  split; [| split; [apply known_team_selected; assumption |]].
  - cbn. rewrite Hm. apply or_else_Some, Hv.
  - intros Hnone. cbn [snd handleFilterChange].
    rewrite runCalls_app, orgCalls_selectedTeam.
    unfold teamCalls. rewrite Hm.
    apply truthy_string in Hv as Htr. rewrite Htr.
    replace (find (fun t => String.eqb (Team.team_id t) v) (allTeams st))
      with (@None Team.t); [reflexivity |].
    symmetry. apply find_None. intros t Ht. apply String.eqb_neq, Hnone, Ht.
Qed.

(** X5. The same for the Organization ID value and the parent's
    current organization. *)
Theorem filter_change_selects_org
    (m : gmap string string) (st : State) (parent : Parent) (v : string) :
  m !! "Organization ID" = Some v ->
  v <> "" ->
  let r := handleFilterChange m st in
  Organization_ID (filters (fst r)) = v /\
  ((exists o, In o (allOrganizations st) /\
              Organization.organization_id o = v) ->
     exists org, In org (allOrganizations st) /\
       Organization.organization_id org = v /\
       currentOrg (runCalls (snd r) parent) = Some org) /\
  ((forall o, In o (allOrganizations st) ->
              Organization.organization_id o <> v) ->
     currentOrg (runCalls (snd r) parent) = currentOrg parent).
Proof.
  intros Hm Hv r. unfold r. cbn [fst snd handleFilterChange].
  rewrite runCalls_app.
  unfold orgCalls. rewrite Hm.
  apply truthy_string in Hv as Htr. rewrite Htr.
  split; [apply or_else_Some; exact Hv |]. split.
  - intros (o & Hin & Hid).
    destruct (find_is_Some
                (fun o => String.eqb (Organization.organization_id o) v) _ o Hin)
      as [org Hf]; [apply String.eqb_eq, Hid |].
    rewrite Hf. apply find_Some in Hf. destruct Hf as [Hin' Heq].
    apply String.eqb_eq in Heq. exists org. auto.
  - intros Hnone.
    replace (find (fun o => String.eqb (Organization.organization_id o) v)
                  (allOrganizations st))
      with (@None Organization.t); [apply teamCalls_currentOrg |].
    symmetry. apply find_None. intros o Ho. apply String.eqb_neq, Hnone, Ho.
Qed.

(** *** Filter suggestions *)

Lemma app_empty_r (s : string) : s +:+ "" = s.
Proof. induction s as [|c s IH]; [reflexivity |]. rewrite app_cons. congruence. Qed.

Lemma includes_empty (s : string) : includes s "" = true.
Proof. apply includes_spec. exists "", s. reflexivity. Qed.

Lemma lower_occurs_refl (s : string) : lower_occurs s s.
Proof. exists "", "". rewrite app_empty_r. reflexivity. Qed.

Lemma lower_occurs_empty (hay : string) : lower_occurs "" hay.
Proof. exists "", (toLowerCase hay). reflexivity. Qed.

Lemma name_matches_spec (name : Nullable string) (searchText : string) :
  name_matches name searchText = true <->
  exists a, name = Val a /\ a <> "" /\ lower_occurs searchText a.
Proof.
  unfold name_matches, cond. destruct name as [| |a].
  1,2: split; [discriminate | intros (a & H & _); discriminate H].
  destruct (truthy a) eqn:Ha.
  - apply truthy_string in Ha. rewrite includes_lower_occurs. split.
    + intros H. eauto.
    + intros (a' & [= <-] & _ & H). exact H.
  - apply not_truthy_string in Ha.
    split; [discriminate | intros (a' & [= <-] & H & _); congruence].
Qed.

(** The test of the Team ID and Organization ID suggestions. *)
Lemma id_or_name_matches (id : string) (name : Nullable string)
    (searchText : string) :
  includes (toLowerCase id) (toLowerCase searchText) ||
  name_matches name searchText = true <->
  lower_occurs searchText id \/
  exists a, name = Val a /\ a <> "" /\ lower_occurs searchText a.
Proof.
  rewrite orb_true_iff, includes_lower_occurs, name_matches_spec. tauto.
Qed.

(** The same test on ASCII text, up to the case of letters. *)
Lemma id_or_name_matches_ascii (id : string) (name : Nullable string)
    (searchText : string) :
  is_ascii searchText = true ->
  is_ascii id = true ->
  (forall a, name = Val a -> is_ascii a = true) ->
  (lower_occurs searchText id \/
   exists a, name = Val a /\ a <> "" /\ lower_occurs searchText a) <->
  (ci_substring searchText id \/
   exists a, name = Val a /\ ci_substring searchText a).
Proof.
  intros Ht Hi Hn. rewrite (lower_occurs_ascii _ _ Ht Hi). split.
  - intros [H | (a & Ha & _ & H)]; [auto |].
    right. exists a. split; [exact Ha |].
    apply (lower_occurs_ascii _ _ Ht (Hn a Ha)), H.
  - intros [H | (a & Ha & H)]; [auto |].
    destruct a as [|c a].
    + left. rewrite (ci_substring_of_empty _ H). apply ci_substring_empty.
    + right. exists (String c a). split; [exact Ha |].
      split; [discriminate |].
      apply (lower_occurs_ascii _ _ Ht (Hn _ Ha)), H.
Qed.

Lemma filter_all {A} (p : A -> bool) (l : list A) :
  (forall x, In x l -> p x = true) -> List.filter p l = l.
Proof.
  induction l as [|x l IH]; cbn; [reflexivity |]. intros H.
  rewrite (H x) by auto. rewrite IH by auto. reflexivity.
Qed.

Lemma sublist_map {A B} (g : A -> B) (l1 l2 : list A) :
  l1 `sublist_of` l2 -> map g l1 `sublist_of` map g l2.
Proof. induction 1; cbn; constructor; assumption. Qed.

Lemma filter_sublist {A} (p : A -> bool) (l : list A) :
  List.filter p l `sublist_of` l.
Proof.
  induction l as [|x l IH]; cbn; [constructor |].
  destruct (p x); constructor; exact IH.
Qed.

Lemma teamSearchFn_filter (st : State) (searchText : string) :
  teamSearchFn st searchText =
  map teamSuggestion (List.filter (teamMatches searchText) (allTeams st)).
Proof. unfold teamSearchFn. destruct (allTeams st); reflexivity. Qed.

(** X6. The Team ID suggestions are, in the order of the held list, the
    held teams whose lower-cased id or non-empty lower-cased alias
    contains the lower-cased search text, each offered under its id; on
    ASCII text these are the teams whose id or alias contains the search
    text up to the case of letters; an empty search text offers every
    held team. *)
Theorem team_suggestions (st : State) (searchText : string) :
  (forall s, In s (teamSearchFn st searchText) <->
     exists team, In team (allTeams st) /\ s = teamSuggestion team /\
       (lower_occurs searchText (Team.team_id team) \/
        exists a, Team.team_alias team = Val a /\ a <> "" /\
                  lower_occurs searchText a)) /\
  (is_ascii searchText = true ->
   (forall team, In team (allTeams st) ->
      is_ascii (Team.team_id team) = true /\
      forall a, Team.team_alias team = Val a -> is_ascii a = true) ->
   forall s, In s (teamSearchFn st searchText) <->
     exists team, In team (allTeams st) /\ s = teamSuggestion team /\
       (ci_substring searchText (Team.team_id team) \/
        exists a, Team.team_alias team = Val a /\ ci_substring searchText a)) /\
  teamSearchFn st searchText `sublist_of` map teamSuggestion (allTeams st) /\
  teamSearchFn st "" = map teamSuggestion (allTeams st).
Proof.
  assert (M : forall s, In s (teamSearchFn st searchText) <->
     exists team, In team (allTeams st) /\ s = teamSuggestion team /\
       (lower_occurs searchText (Team.team_id team) \/
        exists a, Team.team_alias team = Val a /\ a <> "" /\
                  lower_occurs searchText a)).
  { intros s. rewrite teamSearchFn_filter, in_map_iff. split.
    - intros (team & <- & Hin). apply filter_In in Hin. destruct Hin as [Hin Hm].
      apply id_or_name_matches in Hm. eauto.
    - intros (team & Hin & -> & Hm). exists team. split; [reflexivity |].
      apply filter_In. split; [exact Hin |]. apply id_or_name_matches, Hm. }
  split; [exact M |]. split; [| split].
  - intros Ht Hall s. rewrite M. split.
    + intros (team & Hin & Hs & Hm). exists team. split; [exact Hin |].
      split; [exact Hs |]. destruct (Hall team Hin) as [Hi Hn].
      apply (id_or_name_matches_ascii _ _ _ Ht Hi Hn), Hm.
    + intros (team & Hin & Hs & Hm). exists team. split; [exact Hin |].
      split; [exact Hs |]. destruct (Hall team Hin) as [Hi Hn].
      apply (id_or_name_matches_ascii _ _ _ Ht Hi Hn), Hm.
  - rewrite teamSearchFn_filter. apply sublist_map, filter_sublist.
  - rewrite teamSearchFn_filter. f_equal. apply filter_all. intros team _.
    unfold teamMatches. change (toLowerCase "") with "".
    rewrite includes_empty. reflexivity.
Qed.

Lemma orgSearchFn_filter (st : State) (searchText : string) :
  orgSearchFn st searchText =
  map orgSuggestion (List.filter (orgMatches searchText) (allOrganizations st)).
Proof. unfold orgSearchFn. destruct (allOrganizations st); reflexivity. Qed.

(** X7. The Organization ID suggestions are, in the order of the held
    list, the held organizations whose lower-cased id or non-empty
    lower-cased name contains the lower-cased search text; on ASCII text
    these are the organizations whose id or name contains the search
    text up to the case of letters; an empty search text offers every
    one of them. *)
Theorem org_suggestions (st : State) (searchText : string) :
  (forall s, In s (orgSearchFn st searchText) <->
     exists org, In org (allOrganizations st) /\ s = orgSuggestion org /\
       (lower_occurs searchText (Organization.organization_id org) \/
        exists a, Organization.organization_name org = Val a /\ a <> "" /\
                  lower_occurs searchText a)) /\
  (is_ascii searchText = true ->
   (forall org, In org (allOrganizations st) ->
      is_ascii (Organization.organization_id org) = true /\
      forall a, Organization.organization_name org = Val a -> is_ascii a = true) ->
   forall s, In s (orgSearchFn st searchText) <->
     exists org, In org (allOrganizations st) /\ s = orgSuggestion org /\
       (ci_substring searchText (Organization.organization_id org) \/
        exists a, Organization.organization_name org = Val a /\
                  ci_substring searchText a)) /\
  orgSearchFn st searchText `sublist_of` map orgSuggestion (allOrganizations st) /\
  orgSearchFn st "" = map orgSuggestion (allOrganizations st).
Proof.
  assert (M : forall s, In s (orgSearchFn st searchText) <->
     exists org, In org (allOrganizations st) /\ s = orgSuggestion org /\
       (lower_occurs searchText (Organization.organization_id org) \/
        exists a, Organization.organization_name org = Val a /\ a <> "" /\
                  lower_occurs searchText a)).
  { intros s. rewrite orgSearchFn_filter, in_map_iff. split.
    - intros (org & <- & Hin). apply filter_In in Hin. destruct Hin as [Hin Hm].
      apply id_or_name_matches in Hm. eauto.
    - intros (org & Hin & -> & Hm). exists org. split; [reflexivity |].
      apply filter_In. split; [exact Hin |]. apply id_or_name_matches, Hm. }
  split; [exact M |]. split; [| split].
  - intros Ht Hall s. rewrite M. split.
    + intros (org & Hin & Hs & Hm). exists org. split; [exact Hin |].
      split; [exact Hs |]. destruct (Hall org Hin) as [Hi Hn].
      apply (id_or_name_matches_ascii _ _ _ Ht Hi Hn), Hm.
    + intros (org & Hin & Hs & Hm). exists org. split; [exact Hin |].
      split; [exact Hs |]. destruct (Hall org Hin) as [Hi Hn].
      apply (id_or_name_matches_ascii _ _ _ Ht Hi Hn), Hm.
  - rewrite orgSearchFn_filter. apply sublist_map, filter_sublist.
  - rewrite orgSearchFn_filter. f_equal. apply filter_all. intros org _.
    unfold orgMatches. change (toLowerCase "") with "".
    rewrite includes_empty. reflexivity.
Qed.

(** X8. A Key Alias suggestion is a non-empty held alias whose
    lower-casing contains the lower-cased search text, offered under
    itself; on ASCII text, a non-empty held alias that contains the
    search text up to the case of letters. Empty aliases are never
    offered, not even for an empty search text. Applied as the only
    predicate, a suggested alias keeps every record that carries it. *)
Theorem alias_suggestions
    (st : State) (searchText : string) (ks : list KeyResponse) :
  (forall s, In s (aliasSearchFn st searchText) <->
     label s = value s /\ value s <> "" /\ In (value s) (allKeyAliases st) /\
     lower_occurs searchText (value s)) /\
  (is_ascii searchText = true ->
   (forall a, In a (allKeyAliases st) -> is_ascii a = true) ->
   forall s, In s (aliasSearchFn st searchText) <->
     label s = value s /\ value s <> "" /\ In (value s) (allKeyAliases st) /\
     ci_substring searchText (value s)) /\
  (forall s key,
     In s (aliasSearchFn st searchText) ->
     In key ks -> key_alias key = Val (value s) ->
     In key (applyFilters (Some ks) (mkFilters "" "" (value s)))).
Proof.
  assert (E : aliasSearchFn st searchText =
            map (fun alias => mkSuggestion alias alias)
                (List.filter (aliasMatches searchText) (allKeyAliases st))).
  { unfold aliasSearchFn. destruct (allKeyAliases st); reflexivity. }
  assert (M : forall s, In s (aliasSearchFn st searchText) <->
     label s = value s /\ value s <> "" /\ In (value s) (allKeyAliases st) /\
     lower_occurs searchText (value s)).
  { intros s. rewrite E, in_map_iff. split.
    - intros (a & <- & Hin). apply filter_In in Hin. destruct Hin as [Hin Hm].
      unfold aliasMatches in Hm. apply andb_true_iff in Hm. destruct Hm as [Ha Hm].
      apply truthy_string in Ha. apply includes_lower_occurs in Hm. cbn. auto.
    - destruct s as [l v]. cbn. intros (-> & Hv & Hin & Hm).
      exists v. split; [reflexivity |]. apply filter_In. split; [exact Hin |].
      unfold aliasMatches. apply andb_true_iff. split.
      + apply truthy_string, Hv.
      + apply includes_lower_occurs, Hm. }
  split; [exact M |]. split.
  - intros Ht Hall s. rewrite M. split.
    + intros (Hl & Hv & Hin & Hm). repeat split; try assumption.
      apply (lower_occurs_ascii _ _ Ht (Hall _ Hin)), Hm.
    + intros (Hl & Hv & Hin & Hm). repeat split; try assumption.
      apply (lower_occurs_ascii _ _ Ht (Hall _ Hin)), Hm.
  - intros s key Hs Hin Hk. apply M in Hs. destruct Hs as (_ & Hv & _ & _).
    rewrite applyFilters_passes. apply filter_In. split; [exact Hin |].
    apply passes_spec. unfold satisfies. cbn. repeat split; try congruence.
    intros _. exists (value s).
    split; [exact Hk |]. split; [exact Hv | apply lower_occurs_refl].
Qed.

(** X9. Applying a Team ID suggestion always resolves: when the applied
    Team ID value is the non-empty value of a suggestion, the parent's
    selected team becomes a held team with that id. *)
Theorem team_suggestion_resolves
    (st : State) (searchText : string) (s : Suggestion)
    (m : gmap string string) (parent : Parent) :
  In s (teamSearchFn st searchText) ->
  value s <> "" ->
  m !! "Team ID" = Some (value s) ->
  exists team, In team (allTeams st) /\ Team.team_id team = value s /\
    selectedTeam (runCalls (snd (handleFilterChange m st)) parent) = Some team.
Proof.
  intros Hs Hv Hm.
  rewrite teamSearchFn_filter, in_map_iff in Hs.
  destruct Hs as (t & <- & Hin). apply filter_In in Hin.
  apply known_team_selected; [exact Hm | exact Hv |].
  exists t. split; [apply Hin | reflexivity].
Qed.

(** *** The user-list effect *)

Lemma filter_not_null (ids : list (Nullable string)) :
  List.filter (fun id => negb (is_null id)) ids = filter (fun id => id <> Null) ids.
Proof.
  induction ids as [|id ids IH]; [reflexivity |].
  cbn [List.filter]. rewrite filter_cons, <- IH.
  destruct (decide (id <> Null)) as [H|H]; destruct id; cbn;
    try reflexivity; try congruence; exfalso; apply H; discriminate.
Qed.

(** X10. The effect asks for the user list only with a non-empty access
    token, always for page 1 with page size 100, and with the list of
    the records' user ids from which the null ones are removed and
    nothing else: record order is kept, and duplicates and undefined
    ids are sent along. With a token and a null key list it throws
    instead, and without a token it does nothing. *)
Theorem user_list_request
    (accessToken : option string) (keys : option (list KeyResponse)) :
  match userListEffect accessToken keys with
  | UserListCall tok ids page size =>
      accessToken = Some tok /\ tok <> "" /\ page = 1 /\ size = 100 /\
      exists ks, keys = Some ks /\
        ids = filter (fun id => id <> Null) (map user_id ks)
  | ThrowsTypeError => keys = None /\ truthy accessToken = true
  | NoUserListCall => truthy accessToken = false
  end.
Proof.
  unfold userListEffect. destruct accessToken as [tok|]; [| reflexivity].
  destruct (truthy tok) eqn:Htok; [| exact Htok].
  destruct keys as [ks|]; [| split; [reflexivity | exact Htok]].
  apply truthy_string in Htok. repeat split; try assumption.
  exists ks. split; [reflexivity |]. apply filter_not_null.
Qed.

(** *** The "Showing" line *)


(** *** The stand-alone team selector *)

Lemma find_first {A} (p : A -> bool) (xs : list A) (x : A) :
  find p xs = Some x ->
  exists pre post,
    xs = pre ++ x :: post /\ (forall y, In y pre -> p y = false) /\ p x = true.
Proof.
  induction xs as [|y xs IH]; cbn; [discriminate |].
  destruct (p y) eqn:Hp.
  - intros [= ->]. exists [], xs. split; [reflexivity |].
    split; [intros z [] | exact Hp].
  - intros H. destruct (IH H) as (pre & post & -> & Hpre & Hx).
    exists (y :: pre), post. split; [reflexivity |].
    split; [| exact Hx]. intros z [<- | Hz]; auto.
Qed.

(** X12. Choosing a value in the team selector makes exactly one call,
    to [setSelectedTeam]: with the first of the given teams whose id is
    the chosen value, or with null when no given team has that id or
    [teams] is null (unlike a filter change, which then keeps the
    earlier selection). The selector then displays the chosen value in
    the first case and the empty value in the second. The current
    organization is not touched. *)
Theorem team_selector_change
    (teams : option (list Team.t)) (v : string) (parent : Parent) :
  exists chosen,
    handleTeamChange teams v = [SetSelectedTeam chosen] /\
    selectedTeam (runCalls (handleTeamChange teams v) parent) = chosen /\
    currentOrg (runCalls (handleTeamChange teams v) parent) = currentOrg parent /\
    ((exists pre team post,
        default [] teams = pre ++ team :: post /\
        (forall t, In t pre -> Team.team_id t <> v) /\
        Team.team_id team = v /\
        chosen = Some team /\ selectValue chosen = v) \/
     (chosen = None /\
      (forall team, In team (default [] teams) -> Team.team_id team <> v) /\
      selectValue chosen = "")).
Proof.
  unfold handleTeamChange. cbv zeta. eexists.
  split; [reflexivity |]. split; [reflexivity |]. split; [reflexivity |].
  destruct teams as [ts|]; cbn [default from_option].
  - destruct (find _ ts) as [team|] eqn:Hf.
    + left. apply find_first in Hf. destruct Hf as (pre & post & -> & Hpre & Heq).
      apply String.eqb_eq in Heq. exists pre, team, post.
      split; [reflexivity |]. split.
      * intros t Ht. apply String.eqb_neq, Hpre, Ht.
      * split; [exact Heq |]. split; [reflexivity |].
        subst v. cbn. destruct (Team.team_id team); reflexivity.
    + right. rewrite find_None in Hf. split; [reflexivity |].
      split; [| reflexivity]. intros team Hin. apply String.eqb_neq, Hf, Hin.
  - right. split; [reflexivity |]. split; [intros team [] | reflexivity].
Qed.

(** *** Ellipsis in the id and alias cells *)

Lemma length_app (s t : string) :
  String.length (s +:+ t) = (String.length s + String.length t)%nat.
Proof.
  induction s as [|c s IH]; [reflexivity |]. rewrite app_cons. cbn. lia.
Qed.

Lemma length_take_chars (n : nat) (s : string) :
  String.length (take_chars n s) = Nat.min n (String.length s).
Proof.
  revert s. induction n as [|n IH]; intros [|c s]; cbn; try reflexivity.
  rewrite IH. reflexivity.
Qed.

Lemma take_chars_prefix (n : nat) (s : string) :
  exists rest, s = take_chars n s +:+ rest.
Proof.
  revert s. induction n as [|n IH]; intros s.
  - exists s. destruct s; reflexivity.
  - destruct s as [|c s]; [exists ""; reflexivity |].
    destruct (IH s) as [rest H]. exists rest. cbn [take_chars].
    rewrite app_cons. congruence.
Qed.

Lemma slice0_ascii (n : nat) (s : string) :
  is_ascii s = true -> slice0 n s = take_chars n s.
Proof. unfold slice0. intros ->. reflexivity. Qed.

Lemma js_length_ascii (s : string) :
  is_ascii s = true -> js_length s = String.length s.
Proof. unfold js_length. intros ->. reflexivity. Qed.

(** X13. For a non-empty ASCII token the Key ID cell shows the first
    seven characters of the token followed by an ellipsis, the ellipsis
    being added to shorter tokens too, so the text has between 4 and 10
    characters. For a non-empty ASCII alias the Key Alias cell shows the
    alias itself when it has at most 20 characters and otherwise its
    first 20 characters and an ellipsis, 23 characters in all. *)
Theorem ellipsis_cells (st : State) (row : Row) :
  (forall id, token (original row) = Val id -> id <> "" ->
     is_ascii id = true ->
     exists head rest,
       texts (cell st KeyID row) = [head +:+ "..."] /\
       id = head +:+ rest /\
       String.length head = Nat.min 7 (String.length id) /\
       (4 <= String.length (head +:+ "...") <= 10)%nat) /\
  (forall a, key_alias (original row) = Val a -> a <> "" ->
     is_ascii a = true ->
     exists shown,
       texts (cell st KeyAlias row) = [shown] /\
       ((String.length a <= 20)%nat -> shown = a) /\
       ((20 < String.length a)%nat ->
          exists head rest, a = head +:+ rest /\ String.length head = 20%nat /\
            shown = head +:+ "..." /\ String.length shown = 23%nat)).
Proof.
  split.
  - intros id Htok Hid Hasc. destruct (take_chars_prefix 7 id) as [rest Hrest].
    exists (take_chars 7 id), rest. cbn [cell]. rewrite Htok.
    apply truthy_string in Hid as Htr. unfold cond, truncated7. rewrite Htr.
    rewrite (slice0_ascii _ _ Hasc).
    split; [reflexivity |]. split; [exact Hrest |].
    split; [apply length_take_chars |].
    rewrite length_app, length_take_chars.
    change (String.length "...") with 3%nat.
    destruct id; [congruence | cbn [String.length]; lia].
  - intros a Ha Hne Hasc. cbn [cell]. rewrite Ha.
    apply truthy_string in Hne. unfold cond. rewrite Hne.
    rewrite (js_length_ascii _ Hasc), (slice0_ascii _ _ Hasc).
    destruct (Nat.ltb_spec 20 (String.length a)) as [Hlong | Hshort].
    + eexists. split; [reflexivity |]. split; [lia |]. intros _.
      destruct (take_chars_prefix 20 a) as [rest Hrest].
      exists (take_chars 20 a), rest.
      split; [exact Hrest |]. split; [rewrite length_take_chars; lia |].
      split; [reflexivity |].
      rewrite length_app, length_take_chars.
      change (String.length "...") with 3%nat. lia.
    + eexists. split; [reflexivity |]. split; [reflexivity | lia].
Qed.

(** *** Invariants of the state *)

Lemma keepLarger_nonempty {A} (candidate prev : list A) :
  prev <> [] -> keepLarger candidate prev <> [].
Proof.
  unfold keepLarger. intros H.
  destruct (Nat.ltb_spec (length prev) (length candidate)); [| exact H].
  destruct candidate; [cbn in *; lia | discriminate].
Qed.

Lemma update_nonempty (st : State) (u : Props * Update) :
  (allTeams st <> [] -> allTeams (update st u) <> []) /\
  (allOrganizations st <> [] -> allOrganizations (update st u) <> []).
Proof.
  destruct u as [props []]; cbn; try (split; intros H; exact H).
  - unfold teamsPropEffect. destruct (teams props) as [ts|]; [| auto].
    destruct (0 <? length ts)%nat; [| auto]. cbn.
    split; [apply keepLarger_nonempty | auto].
  - unfold organizationsPropEffect.
    destruct (organizations props) as [os|]; [| auto].
    destruct (0 <? length os)%nat; [| auto]. cbn.
    split; [auto | apply keepLarger_nonempty].
  - unfold teamsLoaded. destruct teamsData; cbn; [auto |].
    split; [discriminate | auto].
  - unfold orgsLoaded. destruct orgsData; cbn; [auto |].
    split; [auto | discriminate].
Qed.

(** X14. Once the held list of teams (or of organizations) is not
    empty, it stays non-empty through every sequence of effects and
    resolved fetches: an empty or null list from the parent or from a
    fetch never replaces it. *)
Theorem lookup_lists_stay_nonempty (us : list (Props * Update)) (st : State) :
  (allTeams st <> [] -> allTeams (updates us st) <> []) /\
  (allOrganizations st <> [] -> allOrganizations (updates us st) <> []).
Proof.
  unfold updates. revert st. induction us as [|u us IH]; intros st; [auto |].
  cbn. destruct (IH (update st u)) as [IHt IHo].
  destruct (update_nonempty st u) as [Ht Ho]. auto.
Qed.

(** X15. A user action changes nothing of the state but the selected
    key id and the predicate set, and at most one of the two: the lookup
    lists, the user list and the filtered list are written by effects
    and fetches only. *)
Theorem user_action_frame
    (props : Props) (st st' : State) (ev : Event) (calls : list ParentCall) :
  handle props st ev = Some (st', calls) ->
  userList st' = userList st /\
  allKeyAliases st' = allKeyAliases st /\
  allTeams st' = allTeams st /\
  allOrganizations st' = allOrganizations st /\
  filteredKeys st' = filteredKeys st /\
  (selectedKeyId st' = selectedKeyId st \/ filters st' = filters st).
Proof.
  unfold handle. intros H.
  destruct (render props st) as [|[|v rest]]; try discriminate H.
  destruct v, rest, ev; try discriminate H;
    try (destruct (_ !! _); [| discriminate H]);
    injection H as <- <-; cbn; auto 10.
Qed.

(** X16. Opening a record always finds its data: when the filtered
    list is the one computed from the current key list, a click on the
    Key ID button of a displayed record with a non-empty token shows the
    detail view for that token, with a record of the key list carrying
    that token as its data. *)
Theorem opened_detail_has_data
    (props : Props) (st st' : State) (i : nat) (calls : list ParentCall)
    (id : string) :
  filteredKeys st = Some (applyFilters (keys props) (filters st)) ->
  handle props st (ClickKeyId i) = Some (st', calls) ->
  selectedKeyId st' = Val id ->
  id <> "" ->
  exists key,
    render props st' = Shows [KeyInfoView id (Some key) (allTeams st)] /\
    token key = Val id /\
    In key (default [] (keys props)).
Proof.
  intros Hfk Hev Hsel Hid. unfold handle in Hev.
  pose proof (render_inv props st) as Hinv.
  destruct (render props st) as [|[|v rest]]; try discriminate Hev.
  destruct v as [? ? ? | f prev next rows], rest; try discriminate Hev.
  destruct Hinv as (_ & _ & _ & _ & Hrows).
  destruct (default [] rows !! i) as [row|] eqn:Hrow; [| discriminate Hev].
  injection Hev as <- <-. cbn in Hsel.
  apply list_elem_of_lookup_2, list_elem_of_In in Hrow.
  rewrite Hrows, Hfk in Hrow. cbn in Hrow.
  destruct (keys props) as [ks|] eqn:Hks; [| destruct Hrow].
  rewrite applyFilters_passes in Hrow. apply filter_In in Hrow.
  destruct Hrow as [Hin _].
  destruct (find_is_Some (fun k => strict_eq (token k) id) ks row Hin)
    as [key Hf]; [apply strict_eq_spec, Hsel |].
  exists key.
  rewrite (render_selected props (setSelectedKeyId (token row) st) id Hsel Hid).
  rewrite Hks, Hf. apply find_Some in Hf. destruct Hf as [Hin' Heq].
  apply strict_eq_spec in Heq. auto.
Qed.

(** X17. Applying a filter form in which every value is empty or
    missing, followed by the filter effect, shows the whole key list and
    calls nothing on the parent; Reset followed by the effect shows the
    whole key list as well. *)
Theorem cleared_form_shows_all
    (m : gmap string string) (st : State) (ks : list KeyResponse) :
  (forall name v, m !! name = Some v -> v = "") ->
  filteredKeys (filterEffect (Some ks) (fst (handleFilterChange m st))) = Some ks /\
  snd (handleFilterChange m st) = [] /\
  filteredKeys (filterEffect (Some ks) (fst (handleFilterReset st))) = Some ks.
Proof.
  intros Hm.
  assert (E : forall name, or_else (m !! name) "" = "").
  { intros name. apply or_else_empty. apply Hm. }
  split; [| split; [| reflexivity]].
  - unfold handleFilterChange, filterEffect. cbn. rewrite !E. reflexivity.
  - cbn. unfold teamCalls, orgCalls.
    destruct (m !! "Team ID") as [v|] eqn:Ht;
      [rewrite (Hm _ _ Ht) |];
      (destruct (m !! "Organization ID") as [w|] eqn:Ho;
       [rewrite (Hm _ _ Ho) |]); reflexivity.
Qed.

(** *** Cells on empty values and on looked-up names *)

(** X18. An empty value is shown like a missing one: in each column
    that tests its field for truthiness (Key ID, Key Alias, Team ID,
    Organization ID, User ID, Created At, Created By, Expires, Budget
    Reset) an empty string, and in Models an empty list, renders a
    placeholder. *)
Theorem empty_value_placeholder (st : State) (col : Column) (row : Row) :
  field_empty col (original row) ->
  shows_placeholder (cell st col row).
Proof.
  intros H.
  destruct col; cbn in H; try (exfalso; exact H); cbn [cell]; rewrite H;
    eexists; (split; [| cbn; left; reflexivity]); cbn; auto 6.
Qed.

(** X19. The Team Alias cell shows either "Unknown" or the non-empty
    alias of a held team whose id is the record's team id; the User
    Email cell shows either "-" or the non-empty email of a listed user
    whose id is the record's user id. A name of another team or user is
    never shown. *)
Theorem looked_up_cells (st : State) (row : Row) :
  let key := original row in
  (cell st TeamAlias row = Text "Unknown" \/
   exists team a,
     In team (allTeams st) /\ team_id key = Val (Team.team_id team) /\
     Team.team_alias team = Val a /\ a <> "" /\
     cell st TeamAlias row = Text a) /\
  (cell st UserEmail row = Text "-" \/
   exists user e,
     In user (userList st) /\ user_id key = Val (UserResponse.user_id user) /\
     UserResponse.user_email user = Val e /\ e <> "" /\
     cell st UserEmail row = Text e).
Proof.
  cbv zeta. split; cbn [cell].
  - unfold findTeam. destruct (find _ (allTeams st)) as [team|] eqn:Hf; [| auto].
    apply find_Some in Hf. destruct Hf as [Hin Heq].
    apply strict_eq_spec in Heq. unfold cond.
    destruct (Team.team_alias team) as [| |a] eqn:Ha; [auto | auto |].
    destruct (truthy a) eqn:Htr; [| auto].
    right. exists team, a. apply truthy_string in Htr. auto 6.
  - unfold findUser. destruct (find _ (userList st)) as [user|] eqn:Hf; [| auto].
    apply find_Some in Hf. destruct Hf as [Hin Heq].
    apply strict_eq_spec in Heq. unfold cond.
    destruct (UserResponse.user_email user) as [| |e] eqn:He; [auto | auto |].
    destruct (truthy e) eqn:Htr; [| auto].
    right. exists user, e. apply truthy_string in Htr. auto 6.
Qed.

End Component.

(** ** Concrete instances *)

(** *** In binary64 arithmetic *)

Section Doubles.

#[local] Existing Instance double_numbers.

Import PrimFloat.

(** Doubles compute like the integers up to 2^53, and no further. *)
Example double_arithmetic_example :
  num_sub (num_of_Z 7) (num_of_Z 1) = num_of_Z 6 /\
  num_add (num_of_Z (2 ^ 53 - 1)) (num_of_Z 1) = num_of_Z (2 ^ 53) /\
  num_mul (num_of_Z 3) (num_of_Z 50) = num_of_Z 150 /\
  num_min (num_of_Z 100) (num_of_Z 73) = num_of_Z 73 /\
  num_eqb (num_of_Z 4) (num_of_Z 4) = true /\
  num_eqb (num_of_Z 4) (num_of_Z 5) = false /\
  num_add (num_of_Z (2 ^ 53)) (num_of_Z 1) = num_of_Z (2 ^ 53).
Proof. repeat split. Qed.


End Doubles.

(** *** With integer numbers and ASCII or unaccented Greek text *)

Section Integers.

#[local] Existing Instance integer_numbers.
#[local] Existing Instance integer_format.
#[local] Existing Instance sample_strings.

Example toLowerCase_example :
  toLowerCase "Prod-Key 7" = "prod-key 7" /\
  toLowerCase "ΟΣΑ" = "οσα" /\
  toLowerCase "ΟΣ" = "ος" /\
  toLowerCase "ΣΟΦΟΣ a" = "σοφος a" /\
  js_length "ΟΣΑ" = 3%nat /\
  slice0 2 "ΟΣΑ" = "ΟΣ".
Proof. repeat split. Qed.

Example applyFilters_alias_example :
  applyFilters
    (Some [sample_key (Val "k1") (Val "Prod-Key"); sample_key (Val "k2") Null;
           sample_key (Val "k3") (Val "staging")])
    (mkFilters "" "" "PROD")
  = [sample_key (Val "k1") (Val "Prod-Key")].
Proof. reflexivity. Qed.

Example teamsPropEffect_example :
  let st := setAllTeams [team_a; team_b] (sample_state []) in
  allTeams (teamsPropEffect (Some [team_b; team_a]) st) = [team_a; team_b] /\
  allTeams (teamsPropEffect (Some [team_b; team_b; team_a]) st) =
    [team_b; team_b; team_a] /\
  allTeams (teamsPropEffect (Some []) st) = [team_a; team_b] /\
  allTeams (teamsPropEffect None st) = [team_a; team_b].
Proof. repeat split. Qed.

Example cell_example :
  let st := setAllTeams [team_a; team_b] (sample_state []) in
  let key :=
    mkKey (Val "88dc28d0f030c55e") (Val "a-rather-long-alias-for-a-key")
          (Val "sk-...XyZ9") (Val "team-a") Undefined (Val "user-1")
          (Val "2025-01-02") Null Null (Val 3) Null Null (Val ["gpt-4"])
          Null (Val 60) in
  let row := mkRow key false false in
  texts (cell st KeyID row) = ["88dc28d..."] /\
  texts (cell st KeyAlias row) = ["a-rather-long-alias-..."] /\
  cell st TeamAlias row = Text "Alpha" /\
  cell st TeamAlias (mkRow (sample_key (Val "k") Null) false false) =
    Text "Unknown" /\
  cell st OrganizationID row = Text "-" /\
  cell st UserEmail row = Text "-" /\
  cell st Expires row = Text "Never" /\
  cell st Spend row = Text "3.0000" /\
  cell st Budget row = Text "Unlimited" /\
  texts (cell st Models row) = ["gpt-4"] /\
  texts (cell st RateLimits row) = ["TPM: "; "Unlimited"; "RPM: "].
Proof. repeat split. Qed.

Example handleFilterChange_example :
  let st := setAllOrganizations [org_a]
              (setAllTeams [team_a; team_b] (sample_state [])) in
  snd (handleFilterChange {["Team ID" := "team-b"]} st) =
    [SetSelectedTeam (Some team_b)] /\
  snd (handleFilterChange {["Team ID" := "team-z"]} st) = [] /\
  snd (handleFilterChange
         (<["Organization ID" := "org-a"]> {["Team ID" := ""]}) st) =
    [SetCurrentOrg (Some org_a)] /\
  filters (fst (handleFilterChange {["Key Alias" := "prod"]} st)) =
    mkFilters "" "" "prod".
Proof. repeat split. Qed.

(** C1 as stated fails on a capital sigma: the predicate occurs in the
    alias letter for letter, yet lower-casing writes its last letter as a
    final sigma and the alias's as a medial one, and the record is
    dropped. *)
Lemma final_sigma_alias_dropped :
  let key := sample_key (Val "k1") (Val "ΟΣΑ") in
  let f := mkFilters "" "" "ΟΣ" in
  "ΟΣΑ" = "" +:+ "ΟΣ" +:+ "Α" /\
  satisfies_ignoring_case f key /\
  toLowerCase "ΟΣ" = "ος" /\
  toLowerCase "ΟΣΑ" = "οσα" /\
  applyFilters (Some [key]) f = [].
Proof.
  intros key f. split; [reflexivity |]. split; [| repeat split].
  split; [intros H; destruct H; reflexivity |].
  split; [intros H; destruct H; reflexivity |].
  intros _. exists "ΟΣΑ". split; [reflexivity |].
  exists "", "ΟΣ", "Α". split; [reflexivity | apply eq_ignore_case_refl].
Qed.

Lemma filtered_keys_conjunction_witness :
  let ks := [sample_key (Val "k1") (Val "Prod-Key"); sample_key (Val "k2") Null;
             sample_key (Val "k3") (Val "staging")] in
  let st := setFilters (mkFilters "" "" "PROD") (sample_state ks) in
  filteredKeys (filterEffect (Some ks) st) =
    Some [sample_key (Val "k1") (Val "Prod-Key")] /\
  satisfies_ignoring_case (filters st) (sample_key (Val "k1") (Val "Prod-Key")).
Proof.
  intros ks st.
  destruct (filtered_keys_conjunction ks st) as (H1 & _ & _ & H4 & H5).
  split; [rewrite H1; reflexivity |].
  apply H5; [reflexivity | intros a [= <-]; reflexivity |].
  apply H4. left.
Defined.

Lemma filter_recomputation_stateless_witness :
  let ks := Some [sample_key (Val "k1") (Val "prod"); sample_key (Val "k2") Null] in
  let st1 := sample_state [] in
  let st2 := setSelectedKeyId (Val "k9")
               (setFilteredKeys [sample_key (Val "k7") Null] (sample_state [])) in
  filters st1 = filters st2 /\
  filteredKeys st1 <> filteredKeys st2 /\
  filteredKeys (filterEffect ks st1) = filteredKeys (filterEffect ks st2).
Proof.
  intros ks st1 st2.
  split; [reflexivity |]. split; [discriminate |].
  apply (filter_recomputation_stateless ks st1 st2). reflexivity.
Defined.

Lemma fetched_lists_replace_witness :
  let st := setAllOrganizations [org_a; org_b]
              (setAllTeams [team_a; team_b] (sample_state [])) in
  (length [team_b] < length (allTeams st))%nat /\
  (length [org_b] < length (allOrganizations st))%nat /\
  allTeams (teamsLoaded [team_b] st) = [team_b] /\
  allOrganizations (orgsLoaded [org_b] st) = [org_b] /\
  allTeams (teamsPropEffect (Some [team_b]) st) = [team_a; team_b].
Proof.
  intros st.
  split; [cbn; lia |]. split; [cbn; lia |].
  destruct (fetched_lists_replace "sk-1" [] [team_b] [org_b] st)
    as (Ht & Ho & _); [discriminate | discriminate | discriminate |].
  split; [exact Ht |]. split; [exact Ho | reflexivity].
Defined.


Lemma placeholder_fallback_witness :
  let row := mkRow (sample_key (Val "k1") Null) false false in
  let st := sample_state [] in
  field_absent KeyAlias (original row) /\
  shows_placeholder (cell st KeyAlias row) /\
  shows_placeholder (cell st RateLimits row).
Proof.
  intros row st. split; [exact I |]. split.
  - apply placeholder_fallback; [discriminate | discriminate |].
    left. split; [discriminate | exact I].
  - apply placeholder_fallback; [discriminate | discriminate |].
    right. left. left. reflexivity.
Defined.

(** C5 as stated fails: the Key ID button of a record whose token is
    the empty string stores a non-null identifier, and the table stays
    on screen; and with an identifier selected and a null key list the
    render throws, so that neither view is on screen. *)
Lemma empty_key_id_keeps_table :
  let ks := [sample_key (Val "") (Val "prod")] in
  let props := sample_props ks 1 1 in
  (exists st1,
     handle props (sample_state ks) (ClickKeyId 0) = Some (st1, []) /\
     selectedKeyId st1 = Val "" /\
     selectedKeyId st1 <> Null /\
     detail_visible (render props st1) = false /\
     table_visible (render props st1) = true) /\
  (let props0 := mkProps None false (pagination props) None None None in
   let st2 := setSelectedKeyId (Val "k1") (sample_state ks) in
   selectedKeyId st2 <> Null /\
   render props0 st2 = Throws /\
   detail_visible (render props0 st2) = false /\
   table_visible (render props0 st2) = false).
Proof.
  intros ks props. split.
  - eexists. split; [reflexivity |]. cbn. repeat split. discriminate.
  - cbn. repeat split. discriminate.
Qed.

(** C7 as stated fails: with a null value the Secret Key cell is an
    empty span and the Spend cell reads 0.0000; neither shows a
    placeholder. *)
Lemma secret_key_and_spend_no_placeholder :
  let row := mkRow (sample_key (Val "k1") (Val "prod")) false false in
  let st := sample_state [] in
  let show := cell st in
  (field_absent SecretKey (original row) /\
   show SecretKey row = Element Span [Nothing] /\
   ~ shows_placeholder (show SecretKey row)) /\
  (field_absent Spend (original row) /\
   show Spend row = Text "0.0000" /\
   ~ shows_placeholder (show Spend row)).
Proof.
  intros row st show. split; (split; [exact I |]); (split; [reflexivity |]).
  - intros (p & _ & []).
  - intros (p & Hp & [<- | []]). cbn in Hp.
    repeat (destruct Hp as [Hp | Hp]; [discriminate Hp |]). exact Hp.
Qed.

(** *** Instances of the further properties *)

Lemma relaxed_filters_widen_witness :
  let ks := [sample_key (Val "k1") (Val "Prod-Key"); sample_key (Val "k2") Null;
             sample_key (Val "k3") (Val "staging")] in
  relaxes (mkFilters "" "" "") (mkFilters "" "" "prod") /\
  [sample_key (Val "k1") (Val "Prod-Key")] `sublist_of` ks.
Proof.
  intros ks.
  assert (R : relaxes (mkFilters "" "" "") (mkFilters "" "" "prod"))
    by (repeat split; left; reflexivity).
  split; [exact R |].
  exact (relaxed_filters_widen ks _ _ R).
Defined.

Lemma alias_predicate_ignores_case_witness :
  let ks := [sample_key (Val "k1") (Val "Prod-Key");
             sample_key (Val "k3") (Val "staging")] in
  eq_ignore_case "PROD" "prod" /\
  applyFilters (Some ks) (mkFilters "" "" "PROD") =
  applyFilters (Some ks) (mkFilters "" "" "prod").
Proof.
  intros ks.
  assert (E : eq_ignore_case "PROD" "prod").
  { cbn. unfold same_letter. cbn. repeat split; right; left; lia. }
  split; [exact E |].
  apply alias_predicate_ignores_case;
    [reflexivity | reflexivity | reflexivity | reflexivity | exact E].
Defined.

Lemma filter_change_selects_team_witness :
  let st := setAllTeams [team_a; team_b] (sample_state []) in
  let m : gmap string string := {["Team ID" := "team-b"]} in
  m !! "Team ID" = Some "team-b" /\
  exists team,
    In team [team_a; team_b] /\ Team.team_id team = "team-b" /\
    selectedTeam
      (runCalls (snd (handleFilterChange m st)) (mkParent None None [])) =
    Some team.
Proof.
  intros st m. split; [reflexivity |].
  destruct (filter_change_selects_team m st (mkParent None None []) "team-b")
    as (_ & H & _); [reflexivity | discriminate |].
  apply H. exists team_b. split; [right; left; reflexivity | reflexivity].
Defined.

Lemma filter_change_selects_org_witness :
  let st := setAllOrganizations [org_a; org_b] (sample_state []) in
  let m : gmap string string := {["Organization ID" := "org-z"]} in
  m !! "Organization ID" = Some "org-z" /\
  Organization_ID (filters (fst (handleFilterChange m st))) = "org-z" /\
  currentOrg
    (runCalls (snd (handleFilterChange m st)) (mkParent None (Some org_a) [])) =
  Some org_a.
Proof.
  intros st m. split; [reflexivity |].
  destruct (filter_change_selects_org m st (mkParent None (Some org_a) []) "org-z")
    as (Hf & _ & H); [reflexivity | discriminate |].
  split; [exact Hf |]. apply H.
  intros o [<- | [<- | []]]; discriminate.
Defined.

Lemma team_suggestion_resolves_witness :
  let st := setAllTeams [team_b; team_a] (sample_state []) in
  let m : gmap string string := {["Team ID" := "team-a"]} in
  teamSearchFn st "ALPHA" = [teamSuggestion team_a] /\
  exists team,
    In team [team_b; team_a] /\ Team.team_id team = "team-a" /\
    selectedTeam
      (runCalls (snd (handleFilterChange m st)) (mkParent None None [])) =
    Some team.
Proof.
  intros st m. split; [reflexivity |].
  apply (team_suggestion_resolves st "ALPHA" (teamSuggestion team_a) m);
    [left; reflexivity | discriminate | reflexivity].
Defined.


Lemma user_action_frame_witness :
  let st := setAllTeams [team_a] (sample_state []) in
  let st' := fst (handleFilterChange {["Key Alias" := "prod"]} st) in
  filters st' <> filters st /\
  allTeams st' = allTeams st /\
  filteredKeys st' = filteredKeys st.
Proof.
  intros st st'. split; [discriminate |].
  destruct (user_action_frame (sample_props [] 1 1) st st'
              (ApplyFilters {["Key Alias" := "prod"]}) [])
    as (_ & _ & Ht & _ & Hf & _); [reflexivity |].
  split; [exact Ht | exact Hf].
Defined.

Lemma opened_detail_has_data_witness :
  let ks := [sample_key (Val "k0") Null; sample_key (Val "k1") (Val "prod")] in
  let props := sample_props ks 1 1 in
  let st := sample_state ks in
  handle props st (ClickKeyId 1) =
    Some (setSelectedKeyId (Val "k1") st, []) /\
  exists key,
    render props (setSelectedKeyId (Val "k1") st) =
      Shows [KeyInfoView "k1" (Some key) (allTeams st)] /\
    token key = Val "k1" /\
    In key ks.
Proof.
  intros ks props st. split; [reflexivity |].
  apply (opened_detail_has_data props st _ 1 []);
    [reflexivity | reflexivity | reflexivity | discriminate].
Defined.

Lemma cleared_form_shows_all_witness :
  let ks := [sample_key (Val "k0") Null; sample_key (Val "k1") (Val "prod")] in
  let st := setFilters (mkFilters "team-a" "" "prod") (sample_state ks) in
  let m : gmap string string := {["Team ID" := ""]} in
  filteredKeys (filterEffect (Some ks) st) = Some [] /\
  filteredKeys (filterEffect (Some ks) (fst (handleFilterChange m st))) =
    Some ks.
Proof.
  intros ks st m. split; [reflexivity |].
  apply (cleared_form_shows_all m st ks).
  intros name v H. apply lookup_singleton_Some in H. destruct H as [_ <-].
  reflexivity.
Defined.

Lemma empty_value_placeholder_witness :
  let row := mkRow (sample_key (Val "k1") (Val "")) false false in
  key_alias (original row) = Val "" /\
  shows_placeholder (cell (sample_state []) KeyAlias row).
Proof.
  intros row. split; [reflexivity |].
  apply empty_value_placeholder. reflexivity.
Defined.

End Integers.
